(** * echo-prop: reactive properties over a replay stream

    A shallow embedding of [createEchoProp] and [createEchoProps]
    (index.js) together with the part of rxjs' [ReplaySubject] they call,
    and the properties of the accessor pair, the replay history and the
    returned handle.

    The target is a plain object: its own properties are data properties
    or the accessor pairs that [createEchoProp] defines, all configurable.
    A validator is a total function without effects; a subscriber's
    callback is observed through the calls it receives and does not write
    to the property itself.  Two revisions of [createEchoProp] are
    embedded: the one that reads [useExistingValueAsInitial]
    ([createEchoProp]) and the one without that option
    ([Legacy.createEchoProp]); they share [install].  The first one calls
    [target.hasOwnProperty], a method looked up on the target, and throws
    when an own field of the target hides it: [createEchoProp] and
    [createEchoProps] are calls that return or throw. *)

From stdpp Require Import gmap strings list fin_maps.
From Stdlib Require Import ZArith.

Open Scope Z_scope.
Open Scope nat_scope.

(** ** JavaScript values *)

(** The values a property can hold.  [VObservable id] is the object returned
    by [subject.asObservable()] for the subject owned by closure [id]: it
    offers [subscribe] only, neither [next] nor [complete]. *)
Inductive value : Type :=
| VNull
| VUndefined
| VBool (b : bool)
| VNum (n : Z)
| VStr (s : string)
| VObservable (id : nat).

(** [v == null] : loose equality with [null] holds for [null] and
    [undefined] only. *)
Definition nullish (v : value) : bool :=
  match v with
  | VNull | VUndefined => true
  | _ => false
  end.

(** ToBoolean, as applied by [!validate(...)]. *)
Definition truthy (v : value) : bool :=
  match v with
  | VNull | VUndefined => false
  | VBool b => b
  | VNum n => negb (n =? 0)%Z
  | VStr s => negb (String.eqb s "")
  | VObservable _ => true
  end.

(** ** Observable effects *)

(** Every call of [subscribe] makes a new rxjs Subscriber around the
    callback; subscribers are numbered in the order they are made. *)
Definition subscriber := nat.

Inductive event : Type :=
| Next (s : subscriber) (v : value)   (* the callback of [s] is called with [v] *)
| Complete (s : subscriber)           (* [s] receives the completion signal *)
| Warn (msg : string).                (* console.warn(msg) *)

Definition is_notification (e : event) : bool :=
  match e with
  | Next _ _ | Complete _ => true
  | Warn _ => false
  end.

(** The subscriber an event is addressed to. *)
Definition addressee (e : event) : option subscriber :=
  match e with
  | Next s _ | Complete s => Some s
  | Warn _ => None
  end.

(** The values delivered to subscriber [s] in a trace, in order. *)
Fixpoint deliveries (s : subscriber) (evs : list event) : list value :=
  match evs with
  | [] => []
  | Next s' v :: evs' =>
      if Nat.eqb s' s then v :: deliveries s evs' else deliveries s evs'
  | _ :: evs' => deliveries s evs'
  end.

(** ** rxjs ReplaySubject (infinite window time)

    [ReplaySubject] is imported from the rxjs package.  The model follows
    its implementation for the calls index.js makes: the constructor with a
    buffer size, [next], [subscribe], [complete] and [unsubscribe] of a
    subscription.  Callbacks are opaque: calling one is recorded as a [Next]
    event, it does not write to the property again. *)
Module ReplaySubject.

Record t : Type := mk {
_bufferSize : nat;
_buffer : list value;
observers : list subscriber;
isStopped : bool
}.

(** [new ReplaySubject(bufferSize)]: the constructor stores
    [Math.max(1, bufferSize)]. *)
Definition new (bufferSize : nat) : t :=
  mk (Nat.max 1 bufferSize) [] [] false.

(** [_trimBuffer]: [_buffer.splice(0, _buffer.length - _bufferSize)] when
    the buffer is longer than its size. *)
Definition _trimBuffer (s : t) : t :=
  if _bufferSize s <? length (_buffer s)
  then mk (_bufferSize s)
          (drop (length (_buffer s) - _bufferSize s) (_buffer s))
          (observers s) (isStopped s)
  else s.

(** [next(value)]: push unless stopped, trim, then [Subject.next], which
    calls every observer in subscription order unless stopped. *)
Definition next (v : value) (s : t) : t * list event :=
  let s1 := if isStopped s then s
            else mk (_bufferSize s) (_buffer s ++ [v]) (observers s) (isStopped s) in
  let s2 := _trimBuffer s1 in
  (s2, if isStopped s2 then [] else (λ o, Next o v) <$> observers s2).

(** [subscribe(callback)] for the new subscriber [o]: trim, register [o]
    unless stopped, replay a copy of the buffer to [o], then pass on the
    completion when stopped. *)
Definition subscribe (o : subscriber) (s : t) : t * list event :=
  let s1 := _trimBuffer s in
  let s2 := if isStopped s1 then s1
            else mk (_bufferSize s1) (_buffer s1) (observers s1 ++ [o]) (isStopped s1) in
  (s2, (Next o <$> _buffer s2) ++ (if isStopped s2 then [Complete o] else [])).

(** [complete()]: once; every observer is completed in order and the
    observer list is emptied. *)
Definition complete (s : t) : t * list event :=
  if isStopped s then (s, [])
  else (mk (_bufferSize s) (_buffer s) [] true, Complete <$> observers s).

(** [subscription.unsubscribe()]: the subscriber is removed from the
    observer list. *)
Definition unsubscribe (o : subscriber) (s : t) : t :=
  mk (_bufferSize s) (_buffer s) (filter (λ o', o' ≠ o) (observers s)) (isStopped s).

End ReplaySubject.

(** ** Configuration, closures and the target *)

(** The [config] argument after destructuring with its defaults. *)
Record Config : Type := {
  addAsObservableToTarget : bool;
  replayCount : nat;
  validate : option (value → value → value);
  log : bool;
  useExistingValueAsInitial : bool
}.

(** [config = {}] *)
Definition default_config : Config :=
  {| addAsObservableToTarget := true;
     replayCount := 1;
     validate := None;
     log := false;
     useExistingValueAsInitial := true |}.

(** The variables one call of [createEchoProp] closes over: the accessor
    pair and the handle share them. *)
Record Closure : Type := {
  propertyName : string;
  config : Config;
  lastValue : value;
  subject : ReplaySubject.t
}.

Definition with_subject (c : Closure) (s : ReplaySubject.t) : Closure :=
  {| propertyName := propertyName c; config := config c;
     lastValue := lastValue c; subject := s |}.

Definition with_lastValue (c : Closure) (v : value) : Closure :=
  {| propertyName := propertyName c; config := config c;
     lastValue := v; subject := subject c |}.

(** An own property of the target: a plain data property (writable,
    enumerable, configurable: what an object literal or an assignment
    makes), or the get/set pair that [Object.defineProperty] installs,
    closing over closure [id]. *)
Inductive Property : Type :=
| DataProperty (v : value)
| AccessorProperty (id : nat).

(** The target object, the closures made so far (a closure's identity is
    its position) and the number of subscribers made so far. *)
Record World : Type := {
  target : gmap string Property;
  closures : list Closure;
  subscriberCount : nat
}.

Definition with_target (w : World) (t : gmap string Property) : World :=
  {| target := t; closures := closures w; subscriberCount := subscriberCount w |}.

Definition with_closures (w : World) (cs : list Closure) : World :=
  {| target := target w; closures := cs; subscriberCount := subscriberCount w |}.

(** ** Computations: state passing with an event trace *)

Definition M (A : Type) : Type := World → A * World * list event.

Definition ret {A} (a : A) : M A := λ w, (a, w, []).

Definition bind {A B} (m : M A) (k : A → M B) : M B :=
  λ w, let '(a, w1, e1) := m w in
       let '(b, w2, e2) := k a w1 in
       (b, w2, e1 ++ e2).

Notation "x <- m ;; k" := (bind m (λ x, k))
  (at level 100, m at next level, right associativity, only parsing).
Notation "m ;;; k" := (bind m (λ _, k))
  (at level 100, right associativity, only parsing).

Definition result {A} (r : A * World * list event) : A := r.1.1.
Definition world {A} (r : A * World * list event) : World := r.1.2.
Definition trace {A} (r : A * World * list event) : list event := r.2.

(** ** Calls that can throw *)

Inductive exception : Type :=
| TypeError (msg : string).

(** A call returns a result, or throws; either way it leaves a world and
    the events it caused until then. *)
Inductive outcome (A : Type) : Type :=
| Returned (r : A * World * list event)
| Thrown (e : exception) (w : World) (evs : list event).

Arguments Returned {A} r.
Arguments Thrown {A} e w evs.

Definition T (A : Type) : Type := World → outcome A.

Definition lift {A} (m : M A) : T A := λ w, Returned (m w).

Definition bindT {A B} (m : T A) (k : A → T B) : T B :=
  λ w, match m w with
       | Returned (a, w1, e1) =>
           match k a w1 with
           | Returned (b, w2, e2) => Returned (b, w2, e1 ++ e2)
           | Thrown e w2 e2 => Thrown e w2 (e1 ++ e2)
           end
       | Thrown e w1 e1 => Thrown e w1 e1
       end.

Notation "x <-- m ;; k" := (bindT m (λ x, k))
  (at level 100, m at next level, right associativity, only parsing).

(** The world a call leaves and the events it caused, returned or not. *)
Definition after {A} (o : outcome A) : World :=
  match o with
  | Returned r => world r
  | Thrown _ w _ => w
  end.

Definition caused {A} (o : outcome A) : list event :=
  match o with
  | Returned r => trace r
  | Thrown _ _ evs => evs
  end.

Definition returned {A} (o : outcome A) : option A :=
  match o with
  | Returned r => Some (result r)
  | Thrown _ _ _ => None
  end.

(** ** The accessor pair *)

Definition warning (name : string) : string :=
  "Validation failed for property '" +:+ name +:+ "'. Keeping previous value.".

(** [validate && !validate(newValue, lastValue)] *)
Definition rejects (c : Closure) (newValue : value) : bool :=
  match validate (config c) with
  | Some f => negb (truthy (f newValue (lastValue c)))
  | None => false
  end.

(** [get() { return lastValue; }]; also the handle's [get value()].  An
    accessor pair always belongs to a closure that exists
    ([accessors_bound]); the other branch is never taken from a well-formed
    world. *)
Definition getter (id : nat) : M value :=
  λ w, match closures w !! id with
       | Some c => (lastValue c, w, [])
       | None => (VUndefined, w, [])
       end.

(** [set(newValue) { ... }] of closure [id]. *)
Definition setter (id : nat) (newValue : value) : M unit :=
  λ w, match closures w !! id with
       | Some c =>
           if rejects c newValue
           then (tt, w, if log (config c) then [Warn (warning (propertyName c))] else [])
           else
             let '(s, evs) := ReplaySubject.next newValue (subject c) in
             (tt, with_closures w (<[id := with_subject (with_lastValue c newValue) s]> (closures w)), evs)
       | None => (tt, w, [])
       end.

(** ** Operations on the target *)

(** [target.hasOwnProperty(key)]: the method is looked up on the target
    itself.  Without an own field of that name it is
    [Object.prototype.hasOwnProperty].  An own field named "hasOwnProperty"
    hides it: what the lookup then yields (the data value, or what the getter
    returns) is a value of the model, none of which is callable, and the
    call raises a TypeError. *)
Definition hasOwnProperty (key : string) : T bool :=
  λ w, match target w !! "hasOwnProperty" with
       | Some _ => Thrown (TypeError "target.hasOwnProperty is not a function") w []
       | None => Returned (bool_decide (is_Some (target w !! key)), w, [])
       end.

(** [target[key]] *)
Definition get (key : string) : M value :=
  λ w, match target w !! key with
       | Some (DataProperty v) => (v, w, [])
       | Some (AccessorProperty id) => getter id w
       | None => (VUndefined, w, [])
       end.

(** [target[key] = v]: an accessor property runs its setter, anything else
    becomes (or is overwritten as) a data property. *)
Definition set (key : string) (v : value) : M unit :=
  λ w, match target w !! key with
       | Some (AccessorProperty id) => setter id v w
       | _ => (tt, with_target w (<[key := DataProperty v]> (target w)), [])
       end.

(** [Object.defineProperty(target, key, { get, set, enumerable: true,
    configurable: true })] with the accessor pair of closure [id]. *)
Definition defineProperty (key : string) (id : nat) : M unit :=
  λ w, (tt, with_target w (<[key := AccessorProperty id]> (target w)), []).

(** ** The stream of a closure *)

(** [new ReplaySubject(replayCount)] and [let lastValue = initialValue]:
    a new closure. *)
Definition newClosure (name : string) (cfg : Config) (initialValue : value) : M nat :=
  λ w, (length (closures w),
        with_closures w (closures w ++
          [{| propertyName := name; config := cfg; lastValue := initialValue;
              subject := ReplaySubject.new (replayCount cfg) |}]),
        []).

(** Run a method of the subject of closure [id]. *)
Definition onSubject (id : nat) (f : ReplaySubject.t → ReplaySubject.t * list event) : M unit :=
  λ w, match closures w !! id with
       | Some c =>
           let '(s, evs) := f (subject c) in
           (tt, with_closures w (<[id := with_subject c s]> (closures w)), evs)
       | None => (tt, w, [])
       end.

(** [subject.next(v)] *)
Definition subjectNext (id : nat) (v : value) : M unit :=
  onSubject id (ReplaySubject.next v).

(** [subject.subscribe(callback)]: makes the next subscriber and returns
    it (the subscription). *)
Definition subscribe (id : nat) : M subscriber :=
  λ w, let o := subscriberCount w in
       let '(_, w1, evs) := onSubject id (ReplaySubject.subscribe o) w in
       (o, {| target := target w1; closures := closures w1; subscriberCount := S o |}, evs).

(** [subject.complete()] *)
Definition complete (id : nat) : M unit :=
  onSubject id ReplaySubject.complete.

(** [subscription.unsubscribe()] of subscriber [o] on closure [id]. *)
Definition unsubscribe (id : nat) (o : subscriber) : M unit :=
  onSubject id (λ s, (ReplaySubject.unsubscribe o s, [])).

(** ** createEchoProp *)

(** The returned object: its getter and its three arrows close over [id]. *)
Record Handle : Type := {
  closure : nat;
  name : string
}.

Definition Handle_value (h : Handle) : M value := getter (closure h).
Definition Handle_subscribe (h : Handle) : M subscriber := subscribe (closure h).
Definition Handle_asObservable (h : Handle) : value := VObservable (closure h).
Definition Handle_complete (h : Handle) : M unit := complete (closure h).

(** [observable.subscribe(callback)] on a value read from the target. *)
Definition Observable_subscribe (v : value) : M (option subscriber) :=
  match v with
  | VObservable id => o <- subscribe id ;; ret (Some o)
  | _ => ret None
  end.

(** The body shared by both revisions of index.js, from
    [const subject = new ReplaySubject(replayCount)] on. *)
Definition install (propertyName : string) (initialValue : value) (config : Config) : M Handle :=
  id <- newClosure propertyName config initialValue ;;
  (if negb (nullish initialValue) then subjectNext id initialValue else ret tt) ;;;
  defineProperty propertyName id ;;;
  (if addAsObservableToTarget config
   then set (propertyName +:+ "$") (VObservable id)
   else ret tt) ;;;
  ret {| closure := id; name := propertyName |}.

(** [createEchoProp(target, propertyName, initialValue, config)], the
    revision with [useExistingValueAsInitial]. *)
Definition createEchoProp (propertyName : string) (initialValue : value) (config : Config) : T Handle :=
  initialValue <-- (if useExistingValueAsInitial config && nullish initialValue
                    then own <-- hasOwnProperty propertyName ;;
                         if own then lift (get propertyName) else lift (ret initialValue)
                    else lift (ret initialValue)) ;;
  lift (install propertyName initialValue config).

(** The revision of index.js without the [useExistingValueAsInitial]
    option: the key is not read from [config]. *)
Module Legacy.
Definition createEchoProp (propertyName : string) (initialValue : value) (config : Config) : M Handle :=
  install propertyName initialValue config.
End Legacy.

(** [Array.prototype.map] with a callback that has effects and can throw:
    an exception ends the iteration, what the earlier calls did stays. *)
Fixpoint Array_map {A B} (f : A → T B) (xs : list A) : T (list B) :=
  match xs with
  | [] => lift (ret [])
  | x :: xs' => y <-- f x ;; ys <-- Array_map f xs' ;; lift (ret (y :: ys))
  end.

(** [createEchoProps(target, propertyBook, config)]; [propertyBook] is
    given by [Object.entries(propertyBook)]. *)
Definition createEchoProps (propertyBook : list (string * value)) (config : Config) : T (list Handle) :=
  Array_map (λ '(propName, propDefault), createEchoProp propName propDefault config) propertyBook.

Definition createReactiveProperty := createEchoProp.
Definition createReactiveProperties := createEchoProps.

(** ** The state of a property, in the words of its description *)

Definition history (c : Closure) : list value := ReplaySubject._buffer (subject c).
Definition capacity (c : Closure) : nat := ReplaySubject._bufferSize (subject c).
Definition subscribers (c : Closure) : list subscriber := ReplaySubject.observers (subject c).
Definition terminated (c : Closure) : bool := ReplaySubject.isStopped (subject c).

(** ** Runs of one property

    What a caller can do with one property after [createEchoProp]: assign to
    [target[key]], subscribe, end a subscription, complete the stream. *)
Inductive action : Type :=
| Assign (v : value)
| Subscribe
| Unsubscribe (o : subscriber)
| Terminate.

Definition act (key : string) (id : nat) (a : action) : M unit :=
  match a with
  | Assign v => set key v
  | Subscribe => _ <- subscribe id ;; ret tt
  | Unsubscribe o => unsubscribe id o
  | Terminate => complete id
  end.

(** A run keeps, for every action, the events it caused. *)
Fixpoint run (key : string) (id : nat) (acts : list action) (w : World)
  : World * list (action * list event) :=
  match acts with
  | [] => (w, [])
  | a :: acts' =>
      let '(_, w1, evs) := act key id a w in
      let '(w2, log) := run key id acts' w1 in
      (w2, (a, evs) :: log)
  end.

Definition events_of (log : list (action * list event)) : list event :=
  concat (snd <$> log).

(** ** Specification-side notions *)

(** A write of [v] over the current value [cur] is accepted: no validator,
    or a truthy verdict. *)
Definition accepts (cfg : Config) (cur v : value) : bool :=
  match validate cfg with
  | Some f => truthy (f v cur)
  | None => true
  end.

(** The accepted values of a run that starts with current value [cur],
    oldest first. *)
Fixpoint accepted (cfg : Config) (cur : value) (acts : list action) : list value :=
  match acts with
  | [] => []
  | Assign v :: acts' =>
      if accepts cfg cur v then v :: accepted cfg v acts' else accepted cfg cur acts'
  | _ :: acts' => accepted cfg cur acts'
  end.

(** The current value at the end of such a run. *)
Fixpoint current (cfg : Config) (cur : value) (acts : list action) : value :=
  match acts with
  | [] => cur
  | Assign v :: acts' =>
      if accepts cfg cur v then current cfg v acts' else current cfg cur acts'
  | _ :: acts' => current cfg cur acts'
  end.

(** The run never completes the stream. *)
Definition live (acts : list action) : Prop :=
  Forall (λ a, a ≠ Terminate) acts.

(** The run has no accepted write. *)
Fixpoint quiet (cfg : Config) (cur : value) (acts : list action) : bool :=
  match acts with
  | [] => true
  | Assign v :: acts' => negb (accepts cfg cur v) && quiet cfg cur acts'
  | _ :: acts' => quiet cfg cur acts'
  end.



(** The [k] most recent entries of [l], oldest first. *)
Definition most_recent {A} (k : nat) (l : list A) : list A :=
  drop (length l - k) l.

(** The initial value [createEchoProp] goes on with once its own-field
    test has returned: the existing value when it is adopted. *)
Definition effectiveInitialValue (propertyName : string) (initialValue : value)
    (config : Config) (w : World) : value :=
  if useExistingValueAsInitial config && nullish initialValue
     && bool_decide (is_Some (target w !! propertyName))
  then result (get propertyName w)
  else initialValue.

(** The accepted values the history starts with: the initial value, unless
    it is null or undefined. *)
Definition seed (initialValue : value) : list value :=
  if nullish initialValue then [] else [initialValue].

(** The group creation in the words of its description: one call per pair
    of the mapping, in order, the handles collected in that order. *)
Fixpoint createEchoProps_loop (pairs : list (string * value)) (config : Config)
    (handles : list Handle) : T (list Handle) :=
  match pairs with
  | [] => lift (ret handles)
  | (propName, propDefault) :: pairs' =>
      h <-- createEchoProp propName propDefault config ;;
      createEchoProps_loop pairs' config (handles ++ [h])
  end.

(** ** Well-formed worlds *)

(** Every accessor pair on the target belongs to a closure that exists. *)
Definition bound_in (w : World) (p : Property) : Prop :=
  match p with
  | AccessorProperty id => id < length (closures w)
  | DataProperty _ => True
  end.

Definition accessors_bound (w : World) : Prop :=
  map_Forall (λ _, bound_in w) (target w).

(** The subject of a closure was made with the closure's [replayCount] and
    its buffer is trimmed. *)
Definition closure_ok (c : Closure) : Prop :=
  capacity c = Nat.max 1 (replayCount (config c)) ∧ length (history c) ≤ capacity c.

(** All registered subscribers, closure by closure. *)
Definition all_observers (w : World) : list subscriber :=
  concat (subscribers <$> closures w).

(** A subscriber is registered once, with one subject, and was made
    earlier. *)
Definition observers_fresh (w : World) : Prop :=
  NoDup (all_observers w) ∧ Forall (λ o, o < subscriberCount w) (all_observers w).

#[global] Instance bound_in_dec w p : Decision (bound_in w p).
Proof. destruct p; simpl; apply _. Defined.

#[global] Instance accessors_bound_dec w : Decision (accessors_bound w).
Proof. unfold accessors_bound. apply _. Defined.

#[global] Instance closure_ok_dec c : Decision (closure_ok c).
Proof. unfold closure_ok. apply _. Defined.

#[global] Instance observers_fresh_dec w : Decision (observers_fresh w).
Proof. unfold observers_fresh. apply _. Defined.

(** A world is well formed when its accessor pairs are bound, its
    subscribers are registered once and its subjects hold trimmed buffers of
    the configured size. *)
Definition well_formed (w : World) : Prop :=
  accessors_bound w ∧ observers_fresh w ∧ Forall closure_ok (closures w).

(** What a program does with the target: create a property, or act on
    one. *)
Inductive command : Type :=
| Create (key : string) (initialValue : value) (config : Config)
| Do (key : string) (id : nat) (a : action).

Definition exec (c : command) : T unit :=
  match c with
  | Create key initialValue config =>
      _ <-- createEchoProp key initialValue config ;; lift (ret tt)
  | Do key id a => lift (act key id a)
  end.

(** The program goes on after a call that threw (it may catch the
    exception). *)
Definition exec_all (cs : list command) (w : World) : World :=
  foldl (λ w c, after (exec c w)) w cs.

(** A target of plain data fields, before any property is created. *)
Definition initial (fields : gmap string value) : World :=
  {| target := DataProperty <$> fields; closures := []; subscriberCount := 0 |}.

(** ** States of a world used in the proofs *)

(** [createEchoProp] reaches the own-field test and the test raises. *)
Definition throws (initialValue : value) (config : Config) (w : World) : bool :=
  useExistingValueAsInitial config && nullish initialValue
  && bool_decide (is_Some (target w !! "hasOwnProperty")).

(** What [createEchoProp] returns when it returns. *)
Definition created (key : string) (initialValue : value) (config : Config) : M Handle :=
  λ w, install key (effectiveInitialValue key initialValue config w) config w.

(** One of the calls of [createEchoProps] throws. *)
Fixpoint group_throws (book : list (string * value)) (config : Config) (w : World) : bool :=
  match book with
  | [] => false
  | (key, initialValue) :: book' =>
      throws initialValue config w
      || group_throws book' config (world (created key initialValue config w))
  end.

(** What [createEchoProps] returns when none of its calls throws. *)
Fixpoint created_all (book : list (string * value)) (config : Config) : M (list Handle) :=
  match book with
  | [] => ret []
  | (key, initialValue) :: book' =>
      h <- created key initialValue config ;;
      hs <- created_all book' config ;;
      ret (h :: hs)
  end.


(** The closure a call makes: the subject holds the initial value unless
    that is null or undefined, and nobody has subscribed. *)
Definition fresh_closure (name : string) (cfg : Config) (init : value) : Closure :=
  {| propertyName := name; config := cfg; lastValue := init;
     subject := ReplaySubject.mk (Nat.max 1 (replayCount cfg)) (seed init) [] false |}.

(** The world once the accessor pair is defined. *)
Definition defined (name : string) (init : value) (cfg : Config) (w : World) : World :=
  {| target := <[name := AccessorProperty (length (closures w))]> (target w);
     closures := closures w ++ [fresh_closure name cfg init];
     subscriberCount := subscriberCount w |}.

(** The last step: the assignment to [target[propertyName + "$"]]. *)
Definition attach (name : string) (cfg : Config) (id : nat) : M unit :=
  if addAsObservableToTarget cfg then set (name +:+ "$") (VObservable id) else ret tt.





(** The stream of the property is completed; a new subscriber would be
    replayed [frozen]. *)
Definition stopped_at (w : World) (key : string) (id : nat) (frozen : list value) : Prop :=
  target w !! key = Some (AccessorProperty id)
  ∧ ∃ c, closures w !! id = Some c
         ∧ terminated c = true
         ∧ most_recent (capacity c) (history c) = frozen.

(** What an action may cause once the stream is completed: a write
    notifies nobody, a new subscriber is replayed [frozen] and completed,
    the rest is silent. *)
Definition after_completion (frozen : list value) (entry : action * list event) : Prop :=
  match entry with
  | (Assign _, evs) => Forall (λ e, is_notification e = false) evs
  | (Subscribe, evs) => ∃ o, evs = (Next o <$> frozen) ++ [Complete o]
  | (_, evs) => evs = []
  end.

(** The property at [key] belongs to closure [id], made with [cfg], and
    reads [cur]. *)
Definition reads (w : World) (key : string) (id : nat) (cfg : Config) (cur : value) : Prop :=
  target w !! key = Some (AccessorProperty id)
  ∧ ∃ c, closures w !! id = Some c ∧ config c = cfg ∧ lastValue c = cur.

(** The same, with the history [hist], which fits the subject. *)
Definition holds (w : World) (key : string) (id : nat) (cfg : Config) (cur : value)
    (hist : list value) : Prop :=
  target w !! key = Some (AccessorProperty id)
  ∧ ∃ c, closures w !! id = Some c ∧ config c = cfg ∧ lastValue c = cur
         ∧ history c = hist ∧ length hist ≤ capacity c.

(** Subscriber [o] is registered once with the live stream of the
    property, which reads [cur]. *)
Definition listening (w : World) (key : string) (id : nat) (cfg : Config) (cur : value)
    (o : subscriber) : Prop :=
  target w !! key = Some (AccessorProperty id)
  ∧ (∃ c, closures w !! id = Some c ∧ config c = cfg ∧ lastValue c = cur
          ∧ terminated c = false
          ∧ filter (λ x, x = o) (subscribers c) = [o])
  ∧ o < subscriberCount w.

(** Subscriber [o] has been made and is not registered with the stream of
    the property. *)
Definition detached (w : World) (key : string) (id : nat) (o : subscriber) : Prop :=
  target w !! key = Some (AccessorProperty id)
  ∧ (∃ c, closures w !! id = Some c ∧ o ∉ subscribers c)
  ∧ o < subscriberCount w.

(** Every value of [vs] was accepted by the validator of [cfg] against the
    value before it, [cur] coming first. *)
Fixpoint chain (cfg : Config) (cur : value) (vs : list value) : Prop :=
  match vs with
  | [] => True
  | v :: vs' => accepts cfg cur v = true ∧ chain cfg v vs'
  end.

(** No action of the run ends the subscription of [o]. *)
Definition keeps (o : subscriber) (acts : list action) : Prop :=
  Forall (λ a, a ≠ Unsubscribe o) acts.

(** None of the names is another of them followed by "$". *)
Definition independent_names (keys : list string) : Prop :=
  Forall (λ a, Forall (λ b, a ≠ b +:+ "$") keys) keys.

(** The field [key + "$"] of the target is not an accessor pair. *)
Definition plain_dollar (w : World) (key : string) : Prop :=
  match target w !! (key +:+ "$") with
  | Some (AccessorProperty _) => False
  | _ => True
  end.

#[global] Instance plain_dollar_dec w key : Decision (plain_dollar w key).
Proof. unfold plain_dollar. destruct (target w !! (key +:+ "$")) as [[v|id]|]; apply _. Defined.

#[global] Instance independent_names_dec keys : Decision (independent_names keys).
Proof. unfold independent_names. apply _. Defined.

#[global] Instance keeps_dec o acts : Decision (keeps o acts).
Proof.
  unfold keeps. apply Forall_dec. intros a.
  destruct a as [v| |o'|]; try (left; discriminate).
  destruct (decide (o' = o)) as [->|Hne]; [right; by intros H | left; congruence].
Defined.

#[global] Instance live_dec acts : Decision (live acts).
Proof.
  unfold live. apply Forall_dec. intros a.
  destruct a; try (left; discriminate). right. by intros H.
Defined.

(** [(newValue, oldValue) => newValue > oldValue], on numbers. *)
Definition increasing (newValue oldValue : value) : value :=
  match newValue, oldValue with
  | VNum n, VNum o => VBool (o <? n)%Z
  | _, _ => VBool false
  end.

(** ** Scenarios of test.js *)

(** [(newValue) => newValue >= 5], on numbers. *)
Definition at_least_5 (newValue _ : value) : value :=
  match newValue with
  | VNum n => VBool (5 <=? n)%Z
  | _ => VBool false
  end.

(** A validator that rejects every value. *)
Definition reject_all (_ _ : value) : value := VBool false.

Definition validating (f : value → value → value) : Config :=
  {| addAsObservableToTarget := true; replayCount := 1; validate := Some f;
     log := false; useExistingValueAsInitial := true |}.

Definition replaying (n : nat) : Config :=
  {| addAsObservableToTarget := true; replayCount := n; validate := None;
     log := false; useExistingValueAsInitial := true |}.

Definition empty_world : World :=
  {| target := ∅; closures := []; subscriberCount := 0 |}.

Example test_initial_value :
  returned ((_ <-- createEchoProp "value" (VNum 42) default_config ;; lift (get "value"))
              empty_world) = Some (VNum 42).
Proof. vm_compute. reflexivity. Qed.

Example test_emit_and_update :
  caused ((h <-- createEchoProp "value" (VNum 0) default_config ;;
           lift (Handle_subscribe h ;;;
                 set "value" (VNum 10) ;;;
                 set "value" (VNum 20))) empty_world)
  = [Next 0 (VNum 0); Next 0 (VNum 10); Next 0 (VNum 20)].
Proof. vm_compute. reflexivity. Qed.

Example wf_empty : accessors_bound empty_world ∧ observers_fresh empty_world.
Proof. split; apply (bool_decide_unpack _); vm_compute; exact I. Qed.

Example wf_after :
  accessors_bound (after (createEchoProp "value" (VNum 42) default_config empty_world)).
Proof. apply (bool_decide_unpack _); vm_compute; exact I. Qed.

Example test_replay_count :
  caused ((h <-- createEchoProp "value" (VNum 1) (replaying 2) ;;
           lift (set "value" (VNum 2) ;;;
                 set "value" (VNum 3) ;;;
                 set "value" (VNum 4) ;;;
                 Handle_subscribe h)) empty_world)
  = [Next 0 (VNum 3); Next 0 (VNum 4)].
Proof. vm_compute. reflexivity. Qed.

Example test_validate :
  let o := (h <-- createEchoProp "value" (VNum 5) (validating at_least_5) ;;
            lift (Handle_subscribe h ;;;
                  set "value" (VNum 10) ;;;
                  set "value" (VNum 2) ;;;
                  set "value" (VNum 15) ;;;
                  get "value")) empty_world in
  caused o = [Next 0 (VNum 5); Next 0 (VNum 10); Next 0 (VNum 15)]
  ∧ returned o = Some (VNum 15).
Proof. vm_compute. split; reflexivity. Qed.

Example test_existing_value :
  let w := with_target empty_world {[ "existingProp" := DataProperty (VNum 42) ]} in
  let o := (h <-- createEchoProp "existingProp" VNull default_config ;;
            lift (v <- get "existingProp" ;; v' <- Handle_value h ;; ret (v, v'))) w in
  returned o = Some (VNum 42, VNum 42).
Proof. vm_compute. reflexivity. Qed.

(** The revision without the option starts from [null] there. *)
Example test_existing_value_legacy :
  let w := with_target empty_world {[ "existingProp" := DataProperty (VNum 42) ]} in
  let r := (h <- Legacy.createEchoProp "existingProp" VNull default_config ;;
            v <- get "existingProp" ;; v' <- Handle_value h ;; ret (v, v')) w in
  result r = (VNull, VNull).
Proof. vm_compute. reflexivity. Qed.

Example test_group :
  caused ((_ <-- createEchoProps [("score", VNum 0); ("health", VNum 100)] default_config ;;
           lift (score <- get "score$" ;; health <- get "health$" ;;
                 Observable_subscribe score ;;;
                 Observable_subscribe health ;;;
                 set "score" (VNum 10) ;;;
                 set "health" (VNum 90))) empty_world)
  = [Next 0 (VNum 0); Next 1 (VNum 100); Next 0 (VNum 10); Next 1 (VNum 90)].
Proof. vm_compute. reflexivity. Qed.

(** A target with an own field named "hasOwnProperty": the own-field test
    raises before anything is changed; with an initial value the test is
    not reached. *)
Example shadowed_hasOwnProperty :
  let w := with_target empty_world
             {[ "hasOwnProperty" := DataProperty (VNum 1); "x" := DataProperty (VNum 42) ]} in
  createEchoProp "x" VNull default_config w
  = Thrown (TypeError "target.hasOwnProperty is not a function") w []
  ∧ returned ((h <-- createEchoProp "x" (VNum 7) default_config ;; lift (Handle_value h)) w)
    = Some (VNum 7).
Proof. vm_compute. split; reflexivity. Qed.

(** With [replayCount = 0] the subject still keeps one value. *)
Example replayCount_zero_replays_one :
  caused ((h <-- createEchoProp "value" (VNum 7) (replaying 0) ;;
           lift (Handle_subscribe h)) empty_world)
  = [Next 0 (VNum 7)].
Proof. vm_compute. reflexivity. Qed.

(** ** Elementary facts *)

Lemma length_append (s1 s2 : string) :
  String.length (s1 +:+ s2) = String.length s1 + String.length s2.
Proof. induction s1 as [|a s1 IH]; simpl; [reflexivity | by rewrite IH]. Qed.

Lemma append_dollar_ne (name : string) : name +:+ "$" ≠ name.
Proof.
  intros H. apply (f_equal String.length) in H.
  rewrite length_append in H. simpl in H. lia.
Qed.

Lemma rejects_accepts (c : Closure) (v : value) :
  rejects c v = negb (accepts (config c) (lastValue c) v).
Proof. unfold rejects, accepts. destruct (validate (config c)); reflexivity. Qed.

Lemma get_pure (key : string) (w : World) :
  world (get key w) = w ∧ trace (get key w) = [].
Proof.
  unfold get, getter.
  destruct (target w !! key) as [[v|id]|]; [done | | done].
  destruct (closures w !! id); done.
Qed.

Lemma created_install (name : string) (init : value) (cfg : Config) (w : World) :
  created name init cfg w = install name (effectiveInitialValue name init cfg w) cfg w.
Proof. reflexivity. Qed.

(** [createEchoProp] raises at the own-field test, or is the shared body
    run on the effective initial value. *)
Lemma createEchoProp_outcome (key : string) (init : value) (cfg : Config) (w : World) :
  createEchoProp key init cfg w
  = (if throws init cfg w
     then Thrown (TypeError "target.hasOwnProperty is not a function") w []
     else Returned (created key init cfg w)).
Proof.
  unfold createEchoProp, throws, created, effectiveInitialValue, bindT, hasOwnProperty, lift.
  destruct (useExistingValueAsInitial cfg && nullish init) eqn:E; simpl.
  - destruct (target w !! "hasOwnProperty") as [p|] eqn:Hs; simpl; [done |].
    destruct (bool_decide (is_Some (target w !! key))) eqn:Hown.
    + destruct (get_pure key w) as [Hw He]. unfold result.
      destruct (get key w) as [[v w1] e1].
      unfold world, trace in Hw, He. simpl in Hw, He. subst w1 e1. simpl.
      by destruct (install key v cfg w) as [[h w2] e2].
    + unfold ret. simpl. by destruct (install key init cfg w) as [[h w2] e2].
  - unfold ret. simpl. by destruct (install key init cfg w) as [[h w2] e2].
Qed.

Lemma createEchoProp_returns (key : string) (init : value) (cfg : Config) (w : World) :
  throws init cfg w = false →
  createEchoProp key init cfg w = Returned (created key init cfg w).
Proof. intros H. by rewrite createEchoProp_outcome, H. Qed.

Lemma createEchoProp_returned (key : string) (init : value) (cfg : Config) (w : World)
    (r : Handle * World * list event) :
  createEchoProp key init cfg w = Returned r →
  throws init cfg w = false ∧ r = created key init cfg w.
Proof.
  rewrite createEchoProp_outcome. destruct (throws init cfg w); [done |].
  intros H. by simplify_eq.
Qed.

(** The revision of index.js without the option is the other one with the
    option switched off. *)
Lemma Legacy_createEchoProp (name : string) (init : value) (cfg : Config) (w : World) :
  Legacy.createEchoProp name init cfg w
  = install name init cfg w
  ∧ (useExistingValueAsInitial cfg = false →
     created name init cfg w = Legacy.createEchoProp name init cfg w).
Proof.
  split; [reflexivity |]. intros H.
  rewrite created_install. unfold effectiveInitialValue. rewrite H. reflexivity.
Qed.

(** ** The setter *)

Lemma set_accessor (w : World) (key : string) (id : nat) (v : value) :
  target w !! key = Some (AccessorProperty id) → set key v w = setter id v w.
Proof. intros H. unfold set. by rewrite H. Qed.

Lemma get_accessor (w : World) (key : string) (id : nat) :
  target w !! key = Some (AccessorProperty id) → get key w = getter id w.
Proof. intros H. unfold get. by rewrite H. Qed.

Lemma getter_updated (w : World) (id : nat) (c : Closure) :
  id < length (closures w) →
  getter id (with_closures w (<[id := c]> (closures w)))
  = (lastValue c, with_closures w (<[id := c]> (closures w)), []).
Proof. intros H. unfold getter. simpl. by rewrite list_lookup_insert_eq. Qed.

(** A rejected write. *)
Lemma setter_rejected (w : World) (id : nat) (c : Closure) (v : value) :
  closures w !! id = Some c →
  rejects c v = true →
  setter id v w = (tt, w, if log (config c) then [Warn (warning (propertyName c))] else []).
Proof. intros Hc Hr. unfold setter. by rewrite Hc, Hr. Qed.

(** An accepted write. *)
Lemma setter_accepted (w : World) (id : nat) (c : Closure) (v : value) :
  closures w !! id = Some c →
  rejects c v = false →
  setter id v w
  = (tt,
     with_closures w (<[id := with_subject (with_lastValue c v)
                                (ReplaySubject.next v (subject c)).1]> (closures w)),
     (ReplaySubject.next v (subject c)).2).
Proof.
  intros Hc Hr. unfold setter. rewrite Hc, Hr.
  by destruct (ReplaySubject.next v (subject c)).
Qed.

(** What an accepted assignment to [target[key]] leaves behind. *)
Lemma set_accepted (w : World) (key : string) (id : nat) (c : Closure) (v : value) :
  target w !! key = Some (AccessorProperty id) →
  closures w !! id = Some c →
  rejects c v = false →
  let c' := with_subject (with_lastValue c v) (ReplaySubject.next v (subject c)).1 in
  world (set key v w) = with_closures w (<[id := c']> (closures w))
  ∧ trace (set key v w) = (ReplaySubject.next v (subject c)).2
  ∧ closures (world (set key v w)) !! id = Some c'
  ∧ result (get key (world (set key v w))) = v
  ∧ result (getter id (world (set key v w))) = v.
Proof.
  intros Ht Hc Hr c'.
  assert (Hlt : id < length (closures w)) by (by eapply lookup_lt_Some).
  rewrite (set_accessor _ _ _ _ Ht), (setter_accepted _ _ _ _ Hc Hr).
  unfold world, trace. simpl. fold c'.
  split; [reflexivity |]. split; [reflexivity |].
  split; [by apply list_lookup_insert_eq |].
  rewrite (get_accessor _ _ id) by exact Ht.
  by rewrite getter_updated.
Qed.

Lemma trimBuffer_buffer (s : ReplaySubject.t) :
  ReplaySubject._buffer (ReplaySubject._trimBuffer s)
  = most_recent (ReplaySubject._bufferSize s) (ReplaySubject._buffer s).
Proof.
  unfold ReplaySubject._trimBuffer, most_recent.
  destruct (Nat.ltb_spec (ReplaySubject._bufferSize s) (length (ReplaySubject._buffer s))) as [H|H];
    simpl; [reflexivity |].
  replace (length (ReplaySubject._buffer s) - ReplaySubject._bufferSize s) with 0 by lia.
  reflexivity.
Qed.

Lemma trimBuffer_other (s : ReplaySubject.t) :
  ReplaySubject._bufferSize (ReplaySubject._trimBuffer s) = ReplaySubject._bufferSize s
  ∧ ReplaySubject.observers (ReplaySubject._trimBuffer s) = ReplaySubject.observers s
  ∧ ReplaySubject.isStopped (ReplaySubject._trimBuffer s) = ReplaySubject.isStopped s.
Proof. unfold ReplaySubject._trimBuffer. by destruct (_ <? _). Qed.

Lemma trimBuffer_id (s : ReplaySubject.t) :
  length (ReplaySubject._buffer s) ≤ ReplaySubject._bufferSize s →
  ReplaySubject._trimBuffer s = s.
Proof.
  intros H. unfold ReplaySubject._trimBuffer.
  destruct (Nat.ltb_spec (ReplaySubject._bufferSize s) (length (ReplaySubject._buffer s)));
    [lia | reflexivity].
Qed.

(** [next] on a live subject: the value joins the buffer, the oldest entry
    leaves a full buffer, every observer is called in order. *)
Lemma next_live (v : value) (s : ReplaySubject.t) :
  ReplaySubject.isStopped s = false →
  ReplaySubject.next v s
  = (ReplaySubject.mk (ReplaySubject._bufferSize s)
       (most_recent (ReplaySubject._bufferSize s) (ReplaySubject._buffer s ++ [v]))
       (ReplaySubject.observers s) false,
     (λ o, Next o v) <$> ReplaySubject.observers s).
Proof.
  intros Hs. unfold ReplaySubject.next. rewrite Hs.
  set (s1 := ReplaySubject.mk _ _ _ _).
  destruct (trimBuffer_other s1) as (Hb & Ho & Hst).
  pose proof (trimBuffer_buffer s1) as Hbuf.
  destruct (ReplaySubject._trimBuffer s1) as [b l o st]. simpl in *. subst.
  reflexivity.
Qed.


Lemma most_recent_length {A} (k : nat) (l : list A) :
  length (most_recent k l) = Nat.min k (length l).
Proof. unfold most_recent. rewrite length_drop. lia. Qed.

(** C1: a write that the validator rejects changes nothing, notifies
    nobody and returns. *)
Theorem rejected_write_is_noop (w : World) (key : string) (id : nat) (c : Closure)
    (f : value → value → value) (newValue : value) :
  target w !! key = Some (AccessorProperty id) →
  closures w !! id = Some c →
  validate (config c) = Some f →
  truthy (f newValue (lastValue c)) = false →
  set key newValue w
  = (tt, w, if log (config c) then [Warn (warning (propertyName c))] else [])
  ∧ Forall (λ e, is_notification e = false) (trace (set key newValue w))
  ∧ closures (world (set key newValue w)) !! id = Some c.
Proof.
  intros Ht Hc Hv Hf.
  assert (Hr : rejects c newValue = true) by (unfold rejects; by rewrite Hv, Hf).
  rewrite (set_accessor _ _ _ _ Ht), (setter_rejected _ _ _ _ Hc Hr).
  split; [reflexivity |]. split; [| exact Hc].
  unfold trace. simpl. destruct (log (config c)); repeat constructor.
Qed.

Lemma rejected_write_is_noop_witness :
  let w := after (createEchoProp "value" (VNum 5) (validating at_least_5) empty_world) in
  set "value" (VNum 2) w = (tt, w, [])
  ∧ Forall (λ e, is_notification e = false) (trace (set "value" (VNum 2) w))
  ∧ history <$> closures (world (set "value" (VNum 2) w)) !! 0 = Some [VNum 5].
Proof.
  intros w.
  destruct (rejected_write_is_noop w "value" 0
              {| propertyName := "value"; config := validating at_least_5;
                 lastValue := VNum 5;
                 subject := ReplaySubject.mk 1 [VNum 5] [] false |}
              at_least_5 (VNum 2)) as (H1 & H2 & H3);
    [vm_compute; reflexivity .. |].
  split; [exact H1 |]. split; [exact H2 |]. rewrite H3. reflexivity.
Defined.

(** ** After completion *)

Lemma next_stopped_events (v : value) (s : ReplaySubject.t) :
  ReplaySubject.isStopped s = true →
  (ReplaySubject.next v s).2 = []
  ∧ ReplaySubject.isStopped (ReplaySubject.next v s).1 = true
  ∧ ReplaySubject.observers (ReplaySubject.next v s).1 = ReplaySubject.observers s.
Proof.
  intros Hs. unfold ReplaySubject.next. rewrite Hs. simpl.
  destruct (trimBuffer_other s) as (_ & Ho & Hst). rewrite Hst, Hs. done.
Qed.

Lemma complete_stops (s : ReplaySubject.t) :
  ReplaySubject.isStopped (ReplaySubject.complete s).1 = true
  ∧ ReplaySubject.observers (ReplaySubject.complete s).1
    = (if ReplaySubject.isStopped s then ReplaySubject.observers s else [])
  ∧ ReplaySubject._buffer (ReplaySubject.complete s).1 = ReplaySubject._buffer s
  ∧ ReplaySubject._bufferSize (ReplaySubject.complete s).1 = ReplaySubject._bufferSize s.
Proof. unfold ReplaySubject.complete. by destruct (ReplaySubject.isStopped s) eqn:E. Qed.

Lemma onSubject_found (w : World) (id : nat) (c : Closure)
    (f : ReplaySubject.t → ReplaySubject.t * list event) :
  closures w !! id = Some c →
  onSubject id f w
  = (tt, with_closures w (<[id := with_subject c (f (subject c)).1]> (closures w)),
     (f (subject c)).2).
Proof. intros Hc. unfold onSubject. rewrite Hc. by destruct (f (subject c)). Qed.

(** C10: after [complete], an assignment that passes validation still
    becomes the current value, read by the target and by the handle, and
    notifies nobody. *)
Theorem write_after_complete_updates_value (w : World) (h : Handle) (c : Closure)
    (newValue : value) :
  target w !! name h = Some (AccessorProperty (closure h)) →
  closures w !! closure h = Some c →
  accepts (config c) (lastValue c) newValue = true →
  let w1 := world (Handle_complete h w) in
  let r := set (name h) newValue w1 in
  trace r = []
  ∧ result (get (name h) (world r)) = newValue
  ∧ result (Handle_value h (world r)) = newValue
  ∧ lastValue <$> closures (world r) !! closure h = Some newValue.
Proof.
  intros Ht Hc Hacc w1 r.
  assert (Hlt : closure h < length (closures w)) by (by eapply lookup_lt_Some).
  subst r w1. unfold Handle_complete, complete.
  rewrite (onSubject_found _ _ _ _ Hc).
  set (c1 := with_subject c (ReplaySubject.complete (subject c)).1).
  set (w1 := world (tt, with_closures w (<[closure h:=c1]> (closures w)), _)).
  assert (Hc1 : closures w1 !! closure h = Some c1)
    by (subst w1; simpl; by apply list_lookup_insert_eq).
  assert (Ht1 : target w1 !! name h = Some (AccessorProperty (closure h))) by exact Ht.
  assert (Hr : rejects c1 newValue = false) by (rewrite rejects_accepts; simpl; by rewrite Hacc).
  destruct (complete_stops (subject c)) as (Hst & _).
  destruct (next_stopped_events newValue (subject c1) Hst) as (He & _).
  destruct (set_accepted w1 (name h) (closure h) c1 newValue Ht1 Hc1 Hr)
    as (_ & Htr & Hcl & Hg & Hv).
  split; [by rewrite Htr |]. split; [exact Hg |]. split; [exact Hv |].
  by rewrite Hcl.
Qed.

Lemma write_after_complete_updates_value_witness :
  let w := after (createEchoProp "value" (VNum 0) default_config empty_world) in
  let h := {| closure := 0; name := "value" |} in
  let r := set "value" (VNum 5) (world (Handle_complete h w)) in
  trace r = [] ∧ result (get "value" (world r)) = VNum 5
  ∧ result (Handle_value h (world r)) = VNum 5.
Proof.
  intros w h r.
  destruct (write_after_complete_updates_value w h
              {| propertyName := "value"; config := default_config;
                 lastValue := VNum 0;
                 subject := ReplaySubject.mk 1 [VNum 0] [] false |}
              (VNum 5)) as (H1 & H2 & H3 & _);
    [vm_compute; reflexivity .. |].
  exact (conj H1 (conj H2 H3)).
Defined.

(** ** Frame properties of the primitive steps *)

Lemma setter_frame (w : World) (id : nat) (v : value) :
  target (world (setter id v w)) = target w
  ∧ subscriberCount (world (setter id v w)) = subscriberCount w
  ∧ length (closures (world (setter id v w))) = length (closures w)
  ∧ ∀ j, j ≠ id → closures (world (setter id v w)) !! j = closures w !! j.
Proof.
  unfold setter. destruct (closures w !! id) as [c|] eqn:Hc; [| done].
  destruct (rejects c v); [done |].
  destruct (ReplaySubject.next v (subject c)) as [s evs]. unfold world. simpl.
  rewrite length_insert. repeat split.
  intros j Hj. by apply list_lookup_insert_ne.
Qed.

Lemma onSubject_frame (w : World) (id : nat)
    (f : ReplaySubject.t → ReplaySubject.t * list event) :
  target (world (onSubject id f w)) = target w
  ∧ subscriberCount (world (onSubject id f w)) = subscriberCount w
  ∧ length (closures (world (onSubject id f w))) = length (closures w)
  ∧ ∀ j, j ≠ id → closures (world (onSubject id f w)) !! j = closures w !! j.
Proof.
  unfold onSubject. destruct (closures w !! id) as [c|] eqn:Hc; [| done].
  destruct (f (subject c)) as [s evs]. unfold world. simpl.
  rewrite length_insert. repeat split.
  intros j Hj. by apply list_lookup_insert_ne.
Qed.

(** An assignment to [target[key]] touches at most the closure whose
    accessor pair sits at [key], and no other field of the target. *)
Lemma set_frame (w : World) (key : string) (v : value) :
  subscriberCount (world (set key v w)) = subscriberCount w
  ∧ length (closures (world (set key v w))) = length (closures w)
  ∧ (∀ k, k ≠ key → target (world (set key v w)) !! k = target w !! k)
  ∧ (∀ j, target w !! key ≠ Some (AccessorProperty j) →
          closures (world (set key v w)) !! j = closures w !! j)
  ∧ (∀ id, target w !! key = Some (AccessorProperty id) →
           target (world (set key v w)) = target w)
  ∧ ((∀ id, target w !! key ≠ Some (AccessorProperty id)) →
     target (world (set key v w)) = <[key := DataProperty v]> (target w)
     ∧ closures (world (set key v w)) = closures w
     ∧ trace (set key v w) = []).
Proof.
  unfold set. destruct (target w !! key) as [[d|id]|] eqn:Ht.
  - unfold world, trace. simpl. split_and!; try done.
    intros k Hk. by apply lookup_insert_ne.
  - destruct (setter_frame w id v) as (H1 & H2 & H3 & H4).
    split_and!; try done.
    + intros k _. by rewrite H1.
    + intros j Hj. apply H4. congruence.
    + intros Hn. by destruct (Hn id).
  - unfold world, trace. simpl. split_and!; try done.
    intros k Hk. by apply lookup_insert_ne.
Qed.

(** ** Creation *)

Lemma install_steps (name : string) (init : value) (cfg : Config) (w : World) :
  install name init cfg w
  = ({| closure := length (closures w); name := name |},
     world (attach name cfg (length (closures w)) (defined name init cfg w)),
     trace (attach name cfg (length (closures w)) (defined name init cfg w))).
Proof.
  unfold install, bind, newClosure, defineProperty, attach.
  set (c0 := {| propertyName := name; config := cfg; lastValue := init;
                subject := ReplaySubject.new (replayCount cfg) |}).
  set (w1 := with_closures w (closures w ++ [c0])).
  assert (Hc0 : closures w1 !! length (closures w) = Some c0).
  { subst w1. simpl. by rewrite list_lookup_middle. }
  assert (Hseed : (if negb (nullish init) then subjectNext (length (closures w)) init else ret tt) w1
          = (tt, with_closures w (closures w ++ [fresh_closure name cfg init]), [])).
  { unfold fresh_closure, seed. destruct (nullish init) eqn:Hn; simpl.
    - reflexivity.
    - unfold subjectNext. rewrite (onSubject_found _ _ _ _ Hc0).
      rewrite (next_live init (subject c0)) by reflexivity. simpl.
      subst w1. unfold with_closures. simpl. f_equal. f_equal. f_equal.
      replace (length (closures w)) with (length (closures w) + 0) at 1 by lia.
      rewrite insert_app_r. simpl. unfold with_subject, c0. simpl.
      do 3 f_equal. unfold most_recent. simpl.
      destruct (replayCount cfg) as [|[|n]]; reflexivity. }
  rewrite Hseed. simpl.
  change (with_target (with_closures w (closures w ++ [fresh_closure name cfg init]))
            (<[name:=AccessorProperty (length (closures w))]> (target w)))
    with (defined name init cfg w).
  unfold world, trace.
  destruct (addAsObservableToTarget cfg).
  - destruct (set (name +:+ "$") (VObservable (length (closures w))) (defined name init cfg w))
      as [[[] w4] e4]. simpl. by rewrite app_nil_r.
  - reflexivity.
Qed.

Lemma result_mk {A} (a : A) (w : World) (e : list event) : result (a, w, e) = a.
Proof. reflexivity. Qed.

Lemma world_mk {A} (a : A) (w : World) (e : list event) : world (a, w, e) = w.
Proof. reflexivity. Qed.

Lemma trace_mk {A} (a : A) (w : World) (e : list event) : trace (a, w, e) = e.
Proof. reflexivity. Qed.

Lemma bound_in_length (w w' : World) (p : Property) :
  length (closures w) ≤ length (closures w') → bound_in w p → bound_in w' p.
Proof. destruct p; simpl; [done | lia]. Qed.

Lemma defined_facts (name : string) (init : value) (cfg : Config) (w : World) :
  closures (defined name init cfg w) !! length (closures w) = Some (fresh_closure name cfg init)
  ∧ target (defined name init cfg w) !! name = Some (AccessorProperty (length (closures w)))
  ∧ length (closures (defined name init cfg w)) = S (length (closures w))
  ∧ (∀ k, k ≠ name → target (defined name init cfg w) !! k = target w !! k)
  ∧ (∀ j, j < length (closures w) → closures (defined name init cfg w) !! j = closures w !! j)
  ∧ (accessors_bound w → accessors_bound (defined name init cfg w)).
Proof.
  unfold defined. simpl. split_and!.
  - by rewrite list_lookup_middle.
  - by rewrite lookup_insert_eq.
  - rewrite length_app. simpl. lia.
  - intros k Hk. by rewrite lookup_insert_ne.
  - intros j Hj. by rewrite lookup_app_l.
  - intros Hb. unfold accessors_bound. simpl. apply map_Forall_insert_2.
    + simpl. rewrite length_app. simpl. lia.
    + eapply map_Forall_impl; [exact Hb |]. intros k p Hp.
      eapply bound_in_length; [| exact Hp]. simpl. rewrite length_app. lia.
Qed.

Lemma set_bound (w : World) (key : string) (v : value) :
  accessors_bound w → accessors_bound (world (set key v w)).
Proof.
  intros Hb. destruct (set_frame w key v) as (_ & Hlen & _ & _ & Hacc & Hdata).
  destruct (target w !! key) as [[d|id]|] eqn:Ht.
  - destruct Hdata as (Ht' & _); [congruence |].
    unfold accessors_bound. rewrite Ht'. apply map_Forall_insert_2; [done |].
    eapply map_Forall_impl; [exact Hb |]. intros k p Hp.
    eapply bound_in_length; [| exact Hp]. lia.
  - unfold accessors_bound. rewrite (Hacc id eq_refl).
    eapply map_Forall_impl; [exact Hb |]. intros k p Hp.
    eapply bound_in_length; [| exact Hp]. lia.
  - destruct Hdata as (Ht' & _); [congruence |].
    unfold accessors_bound. rewrite Ht'. apply map_Forall_insert_2; [done |].
    eapply map_Forall_impl; [exact Hb |]. intros k p Hp.
    eapply bound_in_length; [| exact Hp]. lia.
Qed.

(** What [install] leaves behind: a new closure in its initial state, the
    accessor pair at [name], the other closures in place. *)
Lemma install_spec (name : string) (init : value) (cfg : Config) (w : World) :
  let r := install name init cfg w in
  let id := length (closures w) in
  result r = {| closure := id; name := name |}
  ∧ target (world r) !! name = Some (AccessorProperty id)
  ∧ length (closures (world r)) = S id
  ∧ subscriberCount (world r) = subscriberCount w
  ∧ (accessors_bound w →
     closures (world r) !! id = Some (fresh_closure name cfg init)
     ∧ accessors_bound (world r)).
Proof.
  intros r id. subst r. rewrite install_steps. fold id.
  destruct (defined_facts name init cfg w) as (Hc & Ht & Hl & Hk & Hj & Hb).
  rewrite result_mk, !world_mk. split; [reflexivity |].
  unfold attach. destruct (addAsObservableToTarget cfg).
  - destruct (set_frame (defined name init cfg w) (name +:+ "$") (VObservable id))
      as (Hs & Hlen & Htk & Hcl & _).
    split_and!.
    + rewrite Htk; [exact Ht |]. intros E. by apply (append_dollar_ne name).
    + by rewrite Hlen.
    + by rewrite Hs.
    + intros Hw. split; [| by apply set_bound, Hb].
      rewrite Hcl; [exact Hc |].
      rewrite Hk by apply append_dollar_ne. intros E.
      pose proof (map_Forall_lookup_1 _ _ _ _ Hw E) as Hlt. simpl in Hlt. subst id. lia.
  - unfold ret. rewrite !world_mk. split_and!; try done.
    intros Hw. split; [exact Hc | by apply Hb].
Qed.

Lemma created_spec (name : string) (init : value) (cfg : Config) (w : World) :
  let r := created name init cfg w in
  let id := length (closures w) in
  result r = {| closure := id; name := name |}
  ∧ target (world r) !! name = Some (AccessorProperty id)
  ∧ length (closures (world r)) = S id
  ∧ subscriberCount (world r) = subscriberCount w
  ∧ (accessors_bound w →
     closures (world r) !! id
     = Some (fresh_closure name cfg (effectiveInitialValue name init cfg w))
     ∧ accessors_bound (world r)).
Proof. intros r id. subst r. rewrite created_install. apply install_spec. Qed.

(** ** Subscribing *)

Lemma subscribe_spec (w : World) (id : nat) (c : Closure) :
  closures w !! id = Some c →
  let o := subscriberCount w in
  let r := subscribe id w in
  result r = o
  ∧ trace r = (Next o <$> most_recent (capacity c) (history c))
              ++ (if terminated c then [Complete o] else [])
  ∧ subscriberCount (world r) = S o
  ∧ target (world r) = target w
  ∧ closures (world r)
    = <[id := with_subject c (ReplaySubject.subscribe o (subject c)).1]> (closures w).
Proof.
  intros Hc o r. subst r. unfold subscribe. fold o.
  rewrite (onSubject_found _ _ _ _ Hc).
  rewrite result_mk, trace_mk, world_mk. simpl.
  split_and!; try reflexivity.
  unfold ReplaySubject.subscribe, capacity, history, terminated.
  destruct (trimBuffer_other (subject c)) as (_ & _ & Hst).
  rewrite <- trimBuffer_buffer. simpl. rewrite Hst.
  destruct (ReplaySubject.isStopped (subject c)); simpl; rewrite ?Hst; reflexivity.
Qed.

Lemma most_recent_all {A} (k : nat) (l : list A) :
  length l ≤ k → most_recent k l = l.
Proof. intros H. unfold most_recent. by replace (length l - k) with 0 by lia. Qed.

Lemma seed_length (cfg : Config) (init : value) :
  length (seed init) ≤ Nat.max 1 (replayCount cfg).
Proof. unfold seed. destruct (nullish init); simpl; lia. Qed.

(** Right after creation a subscriber is replayed the initial value, if
    there is one. *)
Lemma subscribe_fresh (w : World) (h : Handle) (key : string) (cfg : Config) (init : value) :
  closures w !! closure h = Some (fresh_closure key cfg init) →
  trace (Handle_subscribe h w) = Next (result (Handle_subscribe h w)) <$> seed init.
Proof.
  intros Hc. unfold Handle_subscribe.
  destruct (subscribe_spec w (closure h) _ Hc) as (Hr & Ht & _).
  rewrite Hr, Ht. unfold capacity, history, terminated. simpl.
  rewrite most_recent_all by apply seed_length. by rewrite app_nil_r.
Qed.

(** ** The initial value *)

(** C5: a non-null initial value, given or adopted, becomes the current
    value and the only entry of the history, whatever the validator is. *)
Theorem initial_value_bypasses_validate (w : World) (key : string) (init : value)
    (cfg : Config) (r : Handle * World * list event) :
  accessors_bound w →
  createEchoProp key init cfg w = Returned r →
  nullish (effectiveInitialValue key init cfg w) = false →
  ∃ c, closures (world r) !! closure (result r) = Some c
       ∧ config c = cfg
       ∧ lastValue c = effectiveInitialValue key init cfg w
       ∧ history c = [effectiveInitialValue key init cfg w]
       ∧ result (Handle_value (result r) (world r)) = effectiveInitialValue key init cfg w.
Proof.
  intros Hb Hret Hn. apply createEchoProp_returned in Hret as (_ & ->).
  set (r := created key init cfg w).
  destruct (created_spec key init cfg w) as (Hr & _ & _ & _ & Hc).
  destruct (Hc Hb) as (Hc' & _). fold r in Hr, Hc'.
  exists (fresh_closure key cfg (effectiveInitialValue key init cfg w)).
  rewrite Hr. simpl. split; [exact Hc' |].
  split; [reflexivity |]. split; [reflexivity |].
  split; [unfold history; simpl; unfold seed; by rewrite Hn |].
  unfold Handle_value, getter. simpl. by rewrite Hc'.
Qed.

Lemma initial_value_bypasses_validate_witness :
  ∃ r, createEchoProp "value" (VNum 3) (validating reject_all) empty_world = Returned r
       ∧ (∃ c, closures (world r) !! closure (result r) = Some c
               ∧ config c = validating reject_all
               ∧ lastValue c = VNum 3
               ∧ history c = [VNum 3]
               ∧ result (Handle_value (result r) (world r)) = VNum 3)
       ∧ trace (set "value" (VNum 3) (world r)) = []
       ∧ result (get "value" (world (set "value" (VNum 4) (world r)))) = VNum 3.
Proof.
  eexists. split; [reflexivity |]. split.
  - exact (initial_value_bypasses_validate empty_world "value" (VNum 3)
             (validating reject_all) _
             ltac:(apply (bool_decide_unpack _); vm_compute; exact I) eq_refl eq_refl).
  - vm_compute. split; reflexivity.
Defined.

(** C4, as amended: with a null or undefined [initialValue], the option
    at its default, an own field at [key] that reads [V] and no own field
    named "hasOwnProperty", [createEchoProp] returns, the handle and the
    target read [V], and a subscriber is replayed exactly [V] when [V] is
    neither null nor undefined, and nothing when it is. *)
Theorem existing_value_adopted (w : World) (key : string) (init : value) (cfg : Config)
    (p : Property) :
  accessors_bound w →
  nullish init = true →
  useExistingValueAsInitial cfg = true →
  target w !! key = Some p →
  target w !! "hasOwnProperty" = None →
  ∃ r, createEchoProp key init cfg w = Returned r
       ∧ let V := result (get key w) in
         let s := Handle_subscribe (result r) (world r) in
         result (Handle_value (result r) (world r)) = V
         ∧ result (get key (world r)) = V
         ∧ (nullish V = false → trace s = [Next (result s) V])
         ∧ (nullish V = true → trace s = []).
Proof.
  intros Hb Hn Hu Hp Hs. exists (created key init cfg w).
  split; [apply createEchoProp_returns; unfold throws; by rewrite Hs, andb_false_r |].
  intros V. set (r := created key init cfg w). intros s.
  assert (HV : effectiveInitialValue key init cfg w = V).
  { unfold effectiveInitialValue. rewrite Hu, Hn, Hp. reflexivity. }
  destruct (created_spec key init cfg w) as (Hr & Ht & _ & _ & Hc).
  destruct (Hc Hb) as (Hc' & _). fold r in Hr, Ht, Hc'. rewrite HV in Hc'.
  assert (Hg : getter (length (closures w)) (world r) = (V, world r, [])).
  { unfold getter. by rewrite Hc'. }
  assert (Hsub : trace s = Next (result s) <$> seed V).
  { subst s. apply (subscribe_fresh _ _ key cfg V). rewrite Hr. exact Hc'. }
  split_and!.
  - unfold Handle_value. rewrite Hr. simpl. by rewrite Hg.
  - rewrite (get_accessor _ _ _ Ht). by rewrite Hg.
  - intros HnV. rewrite Hsub. unfold seed. by rewrite HnV.
  - intros HnV. rewrite Hsub. unfold seed. by rewrite HnV.
Qed.

Lemma existing_value_adopted_witness :
  let w := with_target empty_world {[ "existingProp" := DataProperty (VNum 42) ]} in
  ∃ r, createEchoProp "existingProp" VNull default_config w = Returned r
       ∧ result (Handle_value (result r) (world r)) = VNum 42
       ∧ result (get "existingProp" (world r)) = VNum 42
       ∧ trace (Handle_subscribe (result r) (world r)) = [Next 0 (VNum 42)].
Proof.
  intros w.
  destruct (existing_value_adopted w "existingProp" VNull default_config
              (DataProperty (VNum 42))) as (r & Hr & H1 & H2 & H3 & _);
    [apply (bool_decide_unpack _); vm_compute; exact I | reflexivity .. |].
  exists r. split; [exact Hr |]. split; [exact H1 |]. split; [exact H2 |].
  rewrite (H3 eq_refl). f_equal. f_equal.
  apply createEchoProp_returned in Hr as (_ & ->). reflexivity.
Defined.

(** C4 as stated fails for an existing field that holds [null]: it is
    adopted, and nothing is replayed to a subscriber.  It also fails on a
    target with an own field named "hasOwnProperty": the own-field test
    raises and no handle is returned. *)
Lemma existing_null_not_replayed :
  let w := with_target empty_world {[ "x" := DataProperty VNull ]} in
  let w' := with_target empty_world
              {[ "hasOwnProperty" := DataProperty (VNum 1); "x" := DataProperty (VNum 42) ]} in
  (∃ r, createEchoProp "x" VUndefined default_config w = Returned r
        ∧ result (get "x" w) = VNull
        ∧ result (Handle_value (result r) (world r)) = VNull
        ∧ trace (Handle_subscribe (result r) (world r)) = []
        ∧ deliveries 0 (trace (Handle_subscribe (result r) (world r))) ≠ [VNull])
  ∧ createEchoProp "x" VNull default_config w'
    = Thrown (TypeError "target.hasOwnProperty is not a function") w' [].
Proof.
  split; [| vm_compute; reflexivity].
  eexists. split; [vm_compute; reflexivity |].
  vm_compute. split_and!; try reflexivity. discriminate.
Qed.

(** ** The observable field *)

(** C6, as amended: with [addAsObservableToTarget] and no accessor pair at
    [key + "$"], creation assigns the observable of the stream to that
    field as an ordinary data property, and a later assignment to the field
    replaces it. *)
Theorem observable_field_is_assigned (w : World) (key : string) (init : value)
    (cfg : Config) (v : value) (r : Handle * World * list event) :
  addAsObservableToTarget cfg = true →
  (∀ id, target w !! (key +:+ "$") ≠ Some (AccessorProperty id)) →
  createEchoProp key init cfg w = Returned r →
  target (world r) !! (key +:+ "$")
  = Some (DataProperty (Handle_asObservable (result r)))
  ∧ result (get (key +:+ "$") (world r)) = VObservable (closure (result r))
  ∧ target (world (set (key +:+ "$") v (world r))) !! (key +:+ "$")
    = Some (DataProperty v)
  ∧ result (get (key +:+ "$") (world (set (key +:+ "$") v (world r)))) = v.
Proof.
  intros Ha Hn Hret. apply createEchoProp_returned in Hret as (_ & ->).
  rewrite created_install, install_steps.
  rewrite result_mk, !world_mk. unfold attach. rewrite Ha.
  set (init' := effectiveInitialValue key init cfg w).
  destruct (defined_facts key init' cfg w) as (_ & _ & _ & Hk & _).
  assert (Hn' : ∀ id, target (defined key init' cfg w) !! (key +:+ "$")
                      ≠ Some (AccessorProperty id)).
  { intros id. rewrite Hk by apply append_dollar_ne. apply Hn. }
  destruct (set_frame (defined key init' cfg w) (key +:+ "$")
              (VObservable (length (closures w)))) as (_ & _ & _ & _ & _ & Hd).
  destruct (Hd Hn') as (Ht & _).
  set (w1 := world (set (key +:+ "$") (VObservable (length (closures w)))
                      (defined key init' cfg w))) in *.
  assert (Ht1 : target w1 !! (key +:+ "$")
                = Some (DataProperty (VObservable (length (closures w)))))
    by (rewrite Ht; apply lookup_insert_eq).
  assert (Hn1 : ∀ id, target w1 !! (key +:+ "$") ≠ Some (AccessorProperty id))
    by (intros id; by rewrite Ht1).
  destruct (set_frame w1 (key +:+ "$") v) as (_ & _ & _ & _ & _ & Hd1).
  destruct (Hd1 Hn1) as (Ht2 & _).
  assert (Ht3 : target (world (set (key +:+ "$") v w1)) !! (key +:+ "$")
                = Some (DataProperty v))
    by (rewrite Ht2; apply lookup_insert_eq).
  split_and!.
  - exact Ht1.
  - unfold get. by rewrite Ht1.
  - exact Ht3.
  - unfold get. by rewrite Ht3.
Qed.

Lemma observable_field_is_assigned_witness :
  ∃ r, createEchoProp "value" (VNum 0) default_config empty_world = Returned r
       ∧ target (world r) !! "value$" = Some (DataProperty (VObservable 0))
       ∧ target (world (set "value$" (VNum 7) (world r))) !! "value$"
         = Some (DataProperty (VNum 7)).
Proof.
  eexists. split; [reflexivity |].
  destruct (observable_field_is_assigned empty_world "value" (VNum 0) default_config
              (VNum 7) _ eq_refl ltac:(intros id; vm_compute; discriminate) eq_refl)
    as (H1 & _ & H3 & _).
  exact (conj H1 H3).
Defined.

(** C6 as stated fails: the field is writable, an assignment replaces the
    observable. *)
Lemma observable_field_is_replaced :
  ∃ r, createEchoProp "value" (VNum 0) default_config empty_world = Returned r
       ∧ let w' := world (set "value$" (VNum 7) (world r)) in
         result (get "value$" (world r)) = VObservable 0
         ∧ result (get "value$" w') = VNum 7
         ∧ result (get "value$" w') ≠ VObservable 0.
Proof.
  eexists. split; [vm_compute; reflexivity |].
  vm_compute. split_and!; try reflexivity. discriminate.
Qed.

(** ** Creating a group *)

Lemma created_all_cons (key : string) (init : value) (book : list (string * value))
    (cfg : Config) (w : World) :
  created_all ((key, init) :: book) cfg w
  = (result (created key init cfg w)
       :: result (created_all book cfg (world (created key init cfg w))),
     world (created_all book cfg (world (created key init cfg w))),
     trace (created key init cfg w)
       ++ trace (created_all book cfg (world (created key init cfg w)))).
Proof.
  simpl. unfold bind.
  destruct (created key init cfg w) as [[h w1] e1].
  rewrite result_mk, !world_mk, trace_mk.
  destruct (created_all book cfg w1) as [[hs w2] e2].
  rewrite result_mk, world_mk, trace_mk. unfold ret. by rewrite app_nil_r.
Qed.

(** One step of the iteration of [createEchoProps]. *)
Lemma createEchoProps_step (key : string) (init : value) (book : list (string * value))
    (cfg : Config) (w : World) :
  createEchoProps ((key, init) :: book) cfg w
  = match createEchoProp key init cfg w with
    | Returned r1 =>
        match createEchoProps book cfg (world r1) with
        | Returned r2 => Returned (result r1 :: result r2, world r2, trace r1 ++ trace r2)
        | Thrown e w2 e2 => Thrown e w2 (trace r1 ++ e2)
        end
    | Thrown e w1 e1 => Thrown e w1 e1
    end.
Proof.
  unfold createEchoProps. simpl. unfold bindT.
  destruct (createEchoProp key init cfg w) as [[[h w1] e1]|e w1 e1]; [| done].
  rewrite world_mk, result_mk, trace_mk.
  destruct (Array_map _ book w1) as [[[hs w2] e2]|e w2 e2]; [| done].
  unfold lift, ret. by rewrite result_mk, world_mk, trace_mk, app_nil_r.
Qed.

Lemma createEchoProps_loop_acc (book : list (string * value)) (cfg : Config)
    (acc : list Handle) (w : World) :
  createEchoProps_loop book cfg acc w
  = match createEchoProps book cfg w with
    | Returned r => Returned (acc ++ result r, world r, trace r)
    | Thrown e w' evs => Thrown e w' evs
    end.
Proof.
  revert acc w. induction book as [|[key init] book IH]; intros acc w.
  - unfold createEchoProps. simpl. unfold lift, ret.
    by rewrite result_mk, world_mk, app_nil_r.
  - rewrite createEchoProps_step. simpl. unfold bindT.
    destruct (createEchoProp key init cfg w) as [[[h w1] e1]|e w1 e1]; [| done].
    rewrite IH, world_mk, result_mk, trace_mk.
    destruct (createEchoProps book cfg w1) as [[[hs w2] e2]|e w2 e2]; [| done].
    rewrite !result_mk, !world_mk, !trace_mk. by rewrite <- app_assoc.
Qed.

(** [createEchoProps] returns when none of its calls throws, and then
    what the calls return one after the other. *)
Lemma createEchoProps_outcome (book : list (string * value)) (cfg : Config) (w : World) :
  if group_throws book cfg w
  then ∃ w' evs, createEchoProps book cfg w
                 = Thrown (TypeError "target.hasOwnProperty is not a function") w' evs
  else createEchoProps book cfg w = Returned (created_all book cfg w).
Proof.
  revert w. induction book as [|[key init] book IH]; intros w.
  - reflexivity.
  - rewrite createEchoProps_step, createEchoProp_outcome. cbn [group_throws].
    destruct (throws init cfg w); [simpl; eauto |].
    cbn [orb]. specialize (IH (world (created key init cfg w))).
    destruct (group_throws book cfg (world (created key init cfg w))).
    + destruct IH as (w' & evs & ->). eauto.
    + by rewrite IH, created_all_cons.
Qed.

Lemma createEchoProps_returns (book : list (string * value)) (cfg : Config) (w : World) :
  group_throws book cfg w = false →
  createEchoProps book cfg w = Returned (created_all book cfg w).
Proof. intros H. pose proof (createEchoProps_outcome book cfg w) as Ho. by rewrite H in Ho. Qed.

Lemma createEchoProps_returned (book : list (string * value)) (cfg : Config) (w : World)
    (r : list Handle * World * list event) :
  createEchoProps book cfg w = Returned r →
  group_throws book cfg w = false ∧ r = created_all book cfg w.
Proof.
  intros H. pose proof (createEchoProps_outcome book cfg w) as Ho.
  destruct (group_throws book cfg w).
  - destruct Ho as (w' & evs & Ho). by rewrite Ho in H.
  - rewrite Ho in H. by simplify_eq.
Qed.

(** The handles of a group: the names of the mapping in order, closures
    numbered from the first free position. *)
Lemma created_all_handles (book : list (string * value)) (cfg : Config) (w : World) :
  result (created_all book cfg w)
  = imap (λ k p, {| closure := length (closures w) + k; name := p.1 |}) book
  ∧ length (closures (world (created_all book cfg w)))
    = length (closures w) + length book
  ∧ subscriberCount (world (created_all book cfg w)) = subscriberCount w.
Proof.
  revert w. induction book as [|[key init] book IH]; intros w.
  - unfold world, result. simpl. split_and!; [reflexivity | lia | reflexivity].
  - rewrite created_all_cons, result_mk, world_mk.
    destruct (created_spec key init cfg w) as (Hr & _ & Hl & Hs & _).
    destruct (IH (world (created key init cfg w))) as (IHr & IHl & IHs).
    rewrite Hr, IHr, IHl, IHs, Hl, Hs. simpl. split_and!.
    + f_equal; [f_equal; lia |]. apply imap_ext. intros k [n v] _. simpl. f_equal. lia.
    + lia.
    + reflexivity.
Qed.

(** C8: [createEchoProps] is one [createEchoProp] call per pair of the
    mapping, in the mapping's order and with the same options, and returns
    the handles of these calls in that order. *)
Theorem createEchoProps_is_sequence_of_calls (book : list (string * value))
    (cfg : Config) (w : World) :
  createEchoProps book cfg w = createEchoProps_loop book cfg [] w
  ∧ (∀ r, createEchoProps book cfg w = Returned r → name <$> result r = fst <$> book)
  ∧ createReactiveProperties book cfg w = createEchoProps book cfg w.
Proof.
  split_and!.
  - rewrite createEchoProps_loop_acc. simpl.
    by destruct (createEchoProps book cfg w) as [[[hs w'] e]|e w' evs].
  - intros r Hr. apply createEchoProps_returned in Hr as (_ & ->).
    destruct (created_all_handles book cfg w) as (Hr & _). rewrite Hr. clear Hr.
    generalize (length (closures w)). induction book as [|[k v] book IH]; intros n.
    + reflexivity.
    + rewrite imap_cons, !fmap_cons. f_equal. rewrite <- (IH (S n)). f_equal.
      apply imap_ext. intros i [k' v'] _. simpl. f_equal. lia.
  - reflexivity.
Qed.

(** ** Runs of a live property *)

Lemma most_recent_idem {A} (k : nat) (l : list A) :
  most_recent k (most_recent k l) = most_recent k l.
Proof. apply most_recent_all. rewrite most_recent_length. lia. Qed.




Lemma run_cons (key : string) (id : nat) (a : action) (acts : list action) (w : World) :
  run key id (a :: acts) w
  = ((run key id acts (world (act key id a w))).1,
     (a, trace (act key id a w)) :: (run key id acts (world (act key id a w))).2).
Proof.
  simpl. destruct (act key id a w) as [[[] w1] e1]. rewrite world_mk, trace_mk.
  by destruct (run key id acts w1).
Qed.

Lemma accepted_cons (cfg : Config) (cur : value) (a : action) (acts : list action) :
  accepted cfg cur (a :: acts)
  = accepted cfg cur [a] ++ accepted cfg (current cfg cur [a]) acts
  ∧ current cfg cur (a :: acts) = current cfg (current cfg cur [a]) acts.
Proof. destruct a; simpl; try done. by destruct (accepts cfg cur v). Qed.


(** ** Deliveries *)

Lemma deliveries_app (o : subscriber) (e1 e2 : list event) :
  deliveries o (e1 ++ e2) = deliveries o e1 ++ deliveries o e2.
Proof.
  induction e1 as [|[s v|s|m] e1 IH]; simpl; try done.
  destruct (s =? o); simpl; by rewrite IH.
Qed.

Lemma deliveries_next_other (o o' : subscriber) (l : list value) :
  o' ≠ o → deliveries o (Next o' <$> l) = [].
Proof.
  intros Hne. induction l as [|v l IH]; simpl; [done |].
  destruct (Nat.eqb_spec o' o); [done | exact IH].
Qed.

Lemma deliveries_next_same (o : subscriber) (l : list value) :
  deliveries o (Next o <$> l) = l.
Proof.
  induction l as [|v l IH]; [done |].
  rewrite fmap_cons. cbn [deliveries]. by rewrite Nat.eqb_refl, IH.
Qed.


Lemma act_subscribe (key : string) (id : nat) (w : World) :
  act key id Subscribe w = (tt, world (subscribe id w), trace (subscribe id w)).
Proof.
  simpl. unfold bind, ret. destruct (subscribe id w) as [[o w1] e1].
  by rewrite world_mk, trace_mk, app_nil_r.
Qed.


Lemma quiet_cons (cfg : Config) (cur : value) (a : action) (acts : list action) :
  quiet cfg cur (a :: acts) = quiet cfg cur [a] && quiet cfg cur acts.
Proof. destruct a; simpl; try done. by rewrite andb_true_r. Qed.


(** ** Runs of a completed property *)

Lemma next_stopped_state (v : value) (s : ReplaySubject.t) :
  ReplaySubject.isStopped s = true →
  ReplaySubject.next v s = (ReplaySubject._trimBuffer s, []).
Proof.
  intros Hs. unfold ReplaySubject.next. rewrite Hs.
  destruct (trimBuffer_other s) as (_ & _ & Hst). by rewrite Hst, Hs.
Qed.

Lemma trimBuffer_frozen (s : ReplaySubject.t) :
  most_recent (ReplaySubject._bufferSize (ReplaySubject._trimBuffer s))
    (ReplaySubject._buffer (ReplaySubject._trimBuffer s))
  = most_recent (ReplaySubject._bufferSize s) (ReplaySubject._buffer s).
Proof.
  destruct (trimBuffer_other s) as (-> & _). rewrite trimBuffer_buffer.
  apply most_recent_idem.
Qed.

Lemma act_stopped (w : World) (key : string) (id : nat) (frozen : list value) (a : action) :
  stopped_at w key id frozen →
  stopped_at (world (act key id a w)) key id frozen
  ∧ after_completion frozen (a, trace (act key id a w)).
Proof.
  intros (Ht & c & Hc & Hst & Hf).
  assert (Hlt : id < length (closures w)) by (by eapply lookup_lt_Some).
  unfold terminated, capacity, history in *.
  destruct a as [v| |o|]; [| rewrite act_subscribe | |]; cbn [act].
  - destruct (rejects c v) eqn:Hr.
    + rewrite (set_accessor _ _ _ _ Ht), (setter_rejected _ _ _ _ Hc Hr), world_mk, trace_mk.
      split; [split; [done | by exists c] |].
      destruct (log (config c)); repeat constructor.
    + destruct (set_accepted w key id c v Ht Hc Hr) as (Hw & Htr & Hc' & _).
      rewrite (next_stopped_state _ _ Hst) in Hw, Htr, Hc'. simpl in Htr, Hc'.
      rewrite Htr. split; [| constructor].
      split; [by rewrite Hw |].
      eexists. split; [exact Hc' |]. unfold terminated, capacity, history. simpl.
      destruct (trimBuffer_other (subject c)) as (_ & _ & ->).
      split; [done |]. by rewrite trimBuffer_frozen.
  - destruct (subscribe_spec w id c Hc) as (_ & Htr & _ & Ht' & Hcl).
    rewrite world_mk, trace_mk. unfold terminated, capacity, history in Htr.
    rewrite Hst, Hf in Htr. split; [| by eexists].
    split; [by rewrite Ht' |].
    eexists. split; [rewrite Hcl; by apply list_lookup_insert_eq |].
    unfold terminated, capacity, history, ReplaySubject.subscribe. simpl.
    destruct (trimBuffer_other (subject c)) as (_ & _ & Hst').
    rewrite Hst', Hst. rewrite Hst'. split; [done |]. by rewrite trimBuffer_frozen.
  - unfold unsubscribe. rewrite (onSubject_found _ _ _ _ Hc), world_mk, trace_mk. simpl.
    split; [| done]. split; [done |].
    eexists. split; [by apply list_lookup_insert_eq |]. done.
  - unfold complete. rewrite (onSubject_found _ _ _ _ Hc), world_mk, trace_mk.
    unfold ReplaySubject.complete. rewrite Hst. simpl.
    split; [| done]. split; [done |].
    eexists. split; [by apply list_lookup_insert_eq |]. done.
Qed.

Lemma run_stopped (w : World) (key : string) (id : nat) (frozen : list value)
    (acts : list action) :
  stopped_at w key id frozen →
  stopped_at (run key id acts w).1 key id frozen
  ∧ Forall (after_completion frozen) (run key id acts w).2.
Proof.
  revert w. induction acts as [|a acts IH]; intros w Hs.
  - simpl. split; [done | constructor].
  - rewrite run_cons. simpl fst. simpl snd.
    destruct (act_stopped w key id frozen a Hs) as (Hs' & Ha).
    destruct (IH _ Hs') as (IH1 & IH2).
    split; [done | by constructor].
Qed.

(** C7: [complete] sends the completion signal to every registered
    subscriber and leaves the accessor pair on the target; afterwards no
    write notifies anybody, and a new subscriber is replayed only what the
    history held at completion. *)
Theorem no_notification_after_complete (w : World) (h : Handle) (c : Closure)
    (acts : list action) :
  target w !! name h = Some (AccessorProperty (closure h)) →
  closures w !! closure h = Some c →
  terminated c = false →
  let r := Handle_complete h w in
  let r' := run (name h) (closure h) acts (world r) in
  trace r = Complete <$> subscribers c
  ∧ target (world r) = target w
  ∧ target r'.1 !! name h = Some (AccessorProperty (closure h))
  ∧ Forall (after_completion (most_recent (capacity c) (history c))) r'.2.
Proof.
  intros Ht Hc Hlive r r'.
  assert (Hlt : closure h < length (closures w)) by (by eapply lookup_lt_Some).
  subst r' r. unfold Handle_complete, complete.
  rewrite (onSubject_found _ _ _ _ Hc), trace_mk, !world_mk.
  unfold terminated, subscribers, capacity, history in *.
  assert (Hcomp : ReplaySubject.complete (subject c)
                  = (ReplaySubject.mk (ReplaySubject._bufferSize (subject c))
                       (ReplaySubject._buffer (subject c)) [] true,
                     Complete <$> ReplaySubject.observers (subject c))).
  { unfold ReplaySubject.complete. by rewrite Hlive. }
  rewrite Hcomp. simpl.
  split; [done |]. split; [done |].
  match goal with |- context [run _ _ _ ?w1] =>
    destruct (run_stopped w1 (name h) (closure h)
                (most_recent (ReplaySubject._bufferSize (subject c))
                             (ReplaySubject._buffer (subject c))) acts) as ((H1 & _) & H2)
  end; [| done].
  split; [exact Ht |].
  eexists. split; [simpl; by apply list_lookup_insert_eq |]. done.
Qed.

Lemma no_notification_after_complete_witness :
  let w := after ((h <-- createEchoProp "value" (VNum 0) default_config ;;
                   lift (Handle_subscribe h)) empty_world) in
  let h := {| closure := 0; name := "value" |} in
  let r := Handle_complete h w in
  let r' := run "value" 0 [Assign (VNum 5); Subscribe; Assign (VNum 6)] (world r) in
  trace r = [Complete 0]
  ∧ target r'.1 !! "value" = Some (AccessorProperty 0)
  ∧ Forall (after_completion [VNum 0]) r'.2.
Proof.
  intros w h r r'.
  destruct (no_notification_after_complete w h
              {| propertyName := "value"; config := default_config;
                 lastValue := VNum 0;
                 subject := ReplaySubject.mk 1 [VNum 0] [0] false |}
              [Assign (VNum 5); Subscribe; Assign (VNum 6)]) as (H1 & _ & H3 & H4);
    [vm_compute; reflexivity .. |].
  exact (conj H1 (conj H3 H4)).
Defined.

(** ** Registered subscribers *)

Lemma elem_of_concat {A} (x : A) (l : list A) (ls : list (list A)) :
  x ∈ l → l ∈ ls → x ∈ concat ls.
Proof.
  intros Hx Hl. apply list_elem_of_In, in_concat.
  exists l. split; by apply list_elem_of_In.
Qed.

Lemma concat_disjoint {A} (ls : list (list A)) (i j : nat) (a b : list A) (x : A) :
  NoDup (concat ls) → i ≠ j → ls !! i = Some a → ls !! j = Some b →
  x ∈ a → x ∉ b.
Proof.
  revert i j. induction ls as [|l ls IH]; intros i j Hnd Hij Ha Hb Hxa Hxb; [done |].
  rewrite concat_cons in Hnd. apply NoDup_app in Hnd as (_ & Hdis & Hnd).
  destruct i as [|i], j as [|j]; simpl in Ha, Hb; simplify_eq.
  - apply (Hdis x Hxa). eapply elem_of_concat; [exact Hxb |].
    by eapply list_elem_of_lookup_2.
  - apply (Hdis x Hxb). eapply elem_of_concat; [exact Hxa |].
    by eapply list_elem_of_lookup_2.
  - apply (IH i j); auto.
Qed.

(** Subscribers of two closures are different subscribers. *)
Lemma subscribers_disjoint (w : World) (i j : nat) (ci cj : Closure) (o : subscriber) :
  observers_fresh w → i ≠ j →
  closures w !! i = Some ci → closures w !! j = Some cj →
  o ∈ subscribers ci → o ∉ subscribers cj.
Proof.
  intros (Hnd & _) Hij Hi Hj. unfold all_observers in Hnd.
  eapply (concat_disjoint _ i j); [exact Hnd | exact Hij | |];
    rewrite list_lookup_fmap; [by rewrite Hi | by rewrite Hj].
Qed.

Lemma subscribers_made (w : World) (j : nat) (cj : Closure) (o : subscriber) :
  observers_fresh w → closures w !! j = Some cj →
  o ∈ subscribers cj → o < subscriberCount w.
Proof.
  intros (_ & Hall) Hj Ho. rewrite Forall_forall in Hall. apply Hall.
  unfold all_observers. eapply elem_of_concat; [exact Ho |].
  apply list_elem_of_fmap. exists cj. split; [done |]. by eapply list_elem_of_lookup_2.
Qed.

Lemma all_observers_split (w : World) (id : nat) (c : Closure) :
  closures w !! id = Some c →
  ∃ l1 l2, all_observers w = l1 ++ subscribers c ++ l2
           ∧ ∀ c' t n, all_observers {| target := t;
                                        closures := <[id := c']> (closures w);
                                        subscriberCount := n |}
                       = l1 ++ subscribers c' ++ l2.
Proof.
  intros Hc.
  assert (Hlt : id < length (closures w)) by (by eapply lookup_lt_Some).
  exists (concat (subscribers <$> take id (closures w))),
         (concat (subscribers <$> drop (S id) (closures w))).
  unfold all_observers. split.
  - rewrite <- (take_drop_middle _ _ _ Hc) at 1.
    by rewrite fmap_app, concat_app, fmap_cons, concat_cons.
  - intros c' t n. simpl. rewrite insert_take_drop by exact Hlt.
    by rewrite fmap_app, concat_app, fmap_cons, concat_cons.
Qed.

(** A closure whose subscriber list shrinks or stays. *)
Lemma fresh_shrink (w : World) (id : nat) (c c' : Closure) :
  observers_fresh w → closures w !! id = Some c →
  subscribers c' `sublist_of` subscribers c →
  observers_fresh (with_closures w (<[id := c']> (closures w))).
Proof.
  intros (Hnd & Hall) Hc Hsub.
  destruct (all_observers_split w id c Hc) as (l1 & l2 & Hw & Hw').
  unfold observers_fresh, with_closures. rewrite Hw'. rewrite Hw in Hnd, Hall. simpl.
  assert (Hs : l1 ++ subscribers c' ++ l2 `sublist_of` l1 ++ subscribers c ++ l2)
    by (apply sublist_app; [done |]; by apply sublist_app).
  split; [by eapply sublist_NoDup |].
  rewrite Forall_forall in *. intros o Ho. apply Hall. by eapply elem_of_sublist.
Qed.

(** A closure that registers the subscriber just made. *)
Lemma fresh_grow (w : World) (id : nat) (c c' : Closure) :
  observers_fresh w → closures w !! id = Some c →
  subscribers c' = subscribers c ++ [subscriberCount w] →
  observers_fresh {| target := target w;
                     closures := <[id := c']> (closures w);
                     subscriberCount := S (subscriberCount w) |}.
Proof.
  intros (Hnd & Hall) Hc Hsub.
  destruct (all_observers_split w id c Hc) as (l1 & l2 & Hw & Hw').
  unfold observers_fresh. rewrite Hw'. rewrite Hw in Hnd, Hall. simpl. rewrite Hsub.
  assert (Hp : l1 ++ (subscribers c ++ [subscriberCount w]) ++ l2
               ≡ₚ subscriberCount w :: l1 ++ subscribers c ++ l2).
  { rewrite <- app_assoc. simpl. rewrite (app_assoc l1).
    rewrite <- Permutation_middle. by rewrite <- app_assoc. }
  split.
  - rewrite Hp. apply NoDup_cons. split; [| done].
    intros Hin. rewrite Forall_forall in Hall. specialize (Hall _ Hin). lia.
  - rewrite Hp. constructor; [lia |].
    eapply Forall_impl; [exact Hall |]. simpl. intros; lia.
Qed.

Lemma next_observers (v : value) (s : ReplaySubject.t) :
  ReplaySubject.observers (ReplaySubject.next v s).1 = ReplaySubject.observers s.
Proof.
  unfold ReplaySubject.next. simpl.
  destruct (ReplaySubject.isStopped s);
    match goal with |- context [ReplaySubject._trimBuffer ?x] =>
      by destruct (trimBuffer_other x) as (_ & -> & _) end.
Qed.

Lemma subscribers_with_subject (c : Closure) (s : ReplaySubject.t) :
  subscribers (with_subject c s) = ReplaySubject.observers s.
Proof. reflexivity. Qed.

Lemma setter_fresh (w : World) (id : nat) (v : value) :
  observers_fresh w → observers_fresh (world (setter id v w)).
Proof.
  intros Hw. destruct (closures w !! id) as [c|] eqn:Hc.
  - destruct (rejects c v) eqn:Hr.
    + by rewrite (setter_rejected _ _ _ _ Hc Hr).
    + rewrite (setter_accepted _ _ _ _ Hc Hr), world_mk.
      eapply fresh_shrink; [done | exact Hc |].
      by rewrite subscribers_with_subject, next_observers.
  - unfold setter. by rewrite Hc.
Qed.

Lemma set_fresh (w : World) (key : string) (v : value) :
  observers_fresh w → observers_fresh (world (set key v w)).
Proof.
  intros Hw. unfold set. destruct (target w !! key) as [[d|id]|]; try done.
  by apply setter_fresh.
Qed.

Lemma onSubject_fresh (w : World) (id : nat)
    (f : ReplaySubject.t → ReplaySubject.t * list event) :
  (∀ s, ReplaySubject.observers (f s).1 `sublist_of` ReplaySubject.observers s) →
  observers_fresh w → observers_fresh (world (onSubject id f w)).
Proof.
  intros Hf Hw. destruct (closures w !! id) as [c|] eqn:Hc.
  - rewrite (onSubject_found _ _ _ _ Hc), world_mk.
    eapply fresh_shrink; [done | exact Hc |]. rewrite subscribers_with_subject. apply Hf.
  - unfold onSubject. by rewrite Hc.
Qed.

Lemma subscribe_keeps_fresh (w : World) (id : nat) :
  observers_fresh w → observers_fresh (world (subscribe id w)).
Proof.
  intros Hw. unfold subscribe. destruct (closures w !! id) as [c|] eqn:Hc.
  - rewrite (onSubject_found _ _ _ _ Hc), world_mk. simpl.
    unfold ReplaySubject.subscribe.
    destruct (trimBuffer_other (subject c)) as (_ & Ho & Hst). rewrite Hst.
    destruct (ReplaySubject.isStopped (subject c)) eqn:Hs.
    + pose proof (fresh_shrink w id c (with_subject c (ReplaySubject._trimBuffer (subject c)))
                    Hw Hc) as (Hnd & Hall).
      { unfold subscribers. simpl. by rewrite Ho. }
      split; [exact Hnd |]. simpl in *.
      eapply Forall_impl; [exact Hall |]. simpl. intros; lia.
    + eapply fresh_grow; [done | exact Hc |]. unfold subscribers. simpl. by rewrite Ho.
  - unfold onSubject. rewrite Hc, world_mk. destruct Hw as (Hnd & Hall).
    split; [exact Hnd |]. simpl.
    eapply Forall_impl; [exact Hall |]. simpl. intros; lia.
Qed.

(** Every action keeps the registered subscribers apart. *)
Lemma act_fresh (w : World) (key : string) (id : nat) (a : action) :
  observers_fresh w → observers_fresh (world (act key id a w)).
Proof.
  intros Hw. destruct a as [v| |o|]; [| rewrite act_subscribe, world_mk | |]; cbn [act].
  - by apply set_fresh.
  - by apply subscribe_keeps_fresh.
  - apply onSubject_fresh; [| done]. intros s. simpl. apply sublist_filter.
  - apply onSubject_fresh; [| done]. intros s. unfold ReplaySubject.complete.
    destruct (ReplaySubject.isStopped s); simpl; [done | apply sublist_nil_l].
Qed.

Lemma created_fresh (key : string) (init : value) (cfg : Config) (w : World) :
  observers_fresh w → observers_fresh (world (created key init cfg w)).
Proof.
  intros (Hnd & Hall). rewrite created_install, install_steps, world_mk.
  assert (Hd : observers_fresh (defined key (effectiveInitialValue key init cfg w) cfg w)).
  { unfold observers_fresh, all_observers, defined. simpl.
    rewrite fmap_app, concat_app. simpl. by rewrite !app_nil_r. }
  unfold attach. destruct (addAsObservableToTarget cfg); [by apply set_fresh | done].
Qed.

Lemma created_all_fresh (book : list (string * value)) (cfg : Config) (w : World) :
  observers_fresh w → observers_fresh (world (created_all book cfg w)).
Proof.
  revert w. induction book as [|[key init] book IH]; intros w Hw; [done |].
  rewrite created_all_cons, world_mk. by apply IH, created_fresh.
Qed.

(** ** Independence of the properties of a group *)

(** An action on the property of closure [id] leaves every other closure
    as it is. *)
Lemma act_frame (w : World) (key : string) (id j : nat) (a : action) :
  target w !! key = Some (AccessorProperty id) → j ≠ id →
  closures (world (act key id a w)) !! j = closures w !! j.
Proof.
  intros Ht Hj. destruct a as [v| |o|]; [| rewrite act_subscribe, world_mk | |]; cbn [act].
  - rewrite (set_accessor _ _ _ _ Ht). by apply setter_frame.
  - unfold subscribe.
    destruct (onSubject_frame w id (ReplaySubject.subscribe (subscriberCount w)))
      as (_ & _ & _ & Hf).
    destruct (onSubject id _ w) as [[[] w1] e1]. rewrite world_mk in *. simpl. by apply Hf.
  - by apply onSubject_frame.
  - by apply onSubject_frame.
Qed.

(** Whom an action on the property of closure [id] can address: a
    subscriber registered with that closure, or the subscriber the action
    makes. *)
Lemma act_addressees (w : World) (key : string) (id : nat) (a : action) :
  target w !! key = Some (AccessorProperty id) →
  Forall (λ e, ∀ o, addressee e = Some o →
                    (∃ c, closures w !! id = Some c ∧ o ∈ subscribers c)
                    ∨ o = subscriberCount w)
         (trace (act key id a w)).
Proof.
  intros Ht.
  set (P := λ e, ∀ o, addressee e = Some o →
                    (∃ c, closures w !! id = Some c ∧ o ∈ subscribers c)
                    ∨ o = subscriberCount w).
  assert (Hmap : ∀ (c : Closure) (f : subscriber → event),
            closures w !! id = Some c →
            (∀ o, addressee (f o) = Some o) →
            Forall P (f <$> subscribers c)).
  { intros c f Hc Hf. apply Forall_fmap, Forall_forall. intros o Ho o' Ho'. simpl in Ho'.
    rewrite Hf in Ho'. simplify_eq. left. by exists c. }
  assert (Hnew : ∀ (l : list value), Forall P (Next (subscriberCount w) <$> l)).
  { intros l. apply Forall_fmap, Forall_forall. intros x _ o Ho. simpl in Ho.
    simplify_eq. by right. }
  destruct (closures w !! id) as [c|] eqn:Hc.
  - specialize (Hmap c). 
    destruct a as [v| |o1|]; [| rewrite act_subscribe, trace_mk | |]; cbn [act].
    + rewrite (set_accessor _ _ _ _ Ht). destruct (rejects c v) eqn:Hr.
      * rewrite (setter_rejected _ _ _ _ Hc Hr), trace_mk.
        destruct (log (config c)); [| constructor].
        apply Forall_cons. split; [| constructor]. intros o Ho. done.
      * rewrite (setter_accepted _ _ _ _ Hc Hr), trace_mk.
        destruct (ReplaySubject.isStopped (subject c)) eqn:Hs.
        -- destruct (next_stopped_events v _ Hs) as (-> & _). constructor.
        -- rewrite (next_live _ _ Hs). simpl. by apply (Hmap (λ o, Next o v)).
    + destruct (subscribe_spec w id c Hc) as (_ & -> & _).
      apply Forall_app. split; [apply Hnew |].
      destruct (terminated c); [| constructor].
      apply Forall_cons. split; [| constructor]. intros o Ho. simpl in Ho.
      simplify_eq. by right.
    + unfold unsubscribe. rewrite (onSubject_found _ _ _ _ Hc), trace_mk. constructor.
    + unfold complete. rewrite (onSubject_found _ _ _ _ Hc), trace_mk.
      unfold ReplaySubject.complete.
      destruct (ReplaySubject.isStopped (subject c)); simpl; [constructor |].
      by apply (Hmap Complete).
  - destruct a as [v| |o1|]; [| rewrite act_subscribe, trace_mk | |]; cbn [act].
    + rewrite (set_accessor _ _ _ _ Ht). unfold setter. rewrite Hc, trace_mk. constructor.
    + unfold subscribe, onSubject. rewrite Hc, trace_mk. constructor.
    + unfold unsubscribe, onSubject. rewrite Hc, trace_mk. constructor.
    + unfold complete, onSubject. rewrite Hc, trace_mk. constructor.
Qed.

(** Creating a property at another name leaves an accessor pair where it
    is. *)
Lemma created_keeps_accessor (key key' : string) (init : value) (cfg : Config)
    (w : World) (i : nat) :
  key' ≠ key →
  target w !! key' = Some (AccessorProperty i) →
  target (world (created key init cfg w)) !! key' = Some (AccessorProperty i).
Proof.
  intros Hne Ht. rewrite created_install, install_steps, world_mk.
  set (init' := effectiveInitialValue key init cfg w).
  destruct (defined_facts key init' cfg w) as (_ & _ & _ & Hk & _).
  assert (Hd : target (defined key init' cfg w) !! key' = Some (AccessorProperty i))
    by (by rewrite Hk).
  unfold attach. destruct (addAsObservableToTarget cfg); [| done].
  destruct (set_frame (defined key init' cfg w) (key +:+ "$")
              (VObservable (length (closures w)))) as (_ & _ & Hother & _ & Hacc & _).
  destruct (decide (key' = key +:+ "$")) as [->|Hne'].
  - by rewrite (Hacc i Hd).
  - by rewrite Hother.
Qed.

Lemma created_all_keeps_accessor (book : list (string * value)) (cfg : Config)
    (w : World) (key' : string) (i : nat) :
  key' ∉ fst <$> book →
  target w !! key' = Some (AccessorProperty i) →
  target (world (created_all book cfg w)) !! key' = Some (AccessorProperty i).
Proof.
  revert w. induction book as [|[key init] book IH]; intros w Hnin Ht; [done |].
  rewrite fmap_cons in Hnin. apply not_elem_of_cons in Hnin as (Hne & Hnin).
  rewrite created_all_cons, world_mk.
  apply IH; [done |]. by apply created_keeps_accessor.
Qed.

(** After a group is created on distinct names, each name carries the
    accessor pair of its own closure. *)
Lemma created_all_bindings (book : list (string * value)) (cfg : Config) (w : World)
    (k : nat) (p : string * value) :
  NoDup (fst <$> book) → book !! k = Some p →
  target (world (created_all book cfg w)) !! p.1
  = Some (AccessorProperty (length (closures w) + k)).
Proof.
  revert w k. induction book as [|[key init] book IH]; intros w k Hnd Hk; [done |].
  rewrite fmap_cons in Hnd. apply NoDup_cons in Hnd as (Hnin & Hnd).
  rewrite created_all_cons, world_mk.
  destruct (created_spec key init cfg w) as (_ & Ht & Hl & _).
  destruct k as [|k]; simpl in Hk.
  - simplify_eq. simpl. rewrite Nat.add_0_r.
    by apply created_all_keeps_accessor.
  - rewrite (IH _ k Hnd Hk), Hl. do 2 f_equal. lia.
Qed.

(** C9: the properties of a group on distinct names have closures of their
    own and each name is bound to its own closure; whatever is done to one
    of them (an accepted or rejected write, a subscription, the end of one,
    completion) leaves the closure of another as it was, current value and
    history included, and addresses none of the other's subscribers. *)
Theorem group_properties_are_independent (w : World) (book : list (string * value))
    (cfg : Config) (i j : nat) (hi hj : Handle) (r : list Handle * World * list event) :
  NoDup (fst <$> book) →
  observers_fresh w →
  i ≠ j →
  createEchoProps book cfg w = Returned r →
  result r !! i = Some hi →
  result r !! j = Some hj →
  closure hi ≠ closure hj
  ∧ target (world r) !! name hi = Some (AccessorProperty (closure hi))
  ∧ target (world r) !! name hj = Some (AccessorProperty (closure hj))
  ∧ observers_fresh (world r)
  ∧ ∀ (w' : World) (a : action) (cj : Closure),
      observers_fresh w' →
      target w' !! name hi = Some (AccessorProperty (closure hi)) →
      closures w' !! closure hj = Some cj →
      let r' := act (name hi) (closure hi) a w' in
      closures (world r') !! closure hj = Some cj
      ∧ Forall (λ e, ∀ o, addressee e = Some o → o ∉ subscribers cj) (trace r')
      ∧ observers_fresh (world r').
Proof.
  intros Hnd Hw Hij Hret Hi Hj.
  apply createEchoProps_returned in Hret as (_ & ->).
  set (r := created_all book cfg w) in *.
  destruct (created_all_handles book cfg w) as (Hr & _). fold r in Hr.
  rewrite Hr in Hi, Hj. rewrite list_lookup_imap in Hi, Hj.
  destruct (book !! i) as [pi|] eqn:Hbi; [| done].
  destruct (book !! j) as [pj|] eqn:Hbj; [| done].
  simpl in Hi, Hj. simplify_eq. simpl.
  split_and!.
  - lia.
  - by apply created_all_bindings.
  - by apply created_all_bindings.
  - by apply created_all_fresh.
  - intros w' a cj Hw' Ht Hcj. split_and!.
    + rewrite <- Hcj. apply act_frame; [done | lia].
    + eapply Forall_impl; [by apply act_addressees |].
      intros e He o Ho Hin. destruct (He o Ho) as [(ci & Hci & Hoi) | Heq].
      * eapply (subscribers_disjoint w' (length (closures w) + i) (length (closures w) + j));
          eauto; lia.
      * pose proof (subscribers_made w' _ cj _ Hw' Hcj Hin). lia.
    + by apply act_fresh.
Qed.

Lemma group_properties_are_independent_witness :
  ∃ r, createEchoProps [("score", VNum 0); ("health", VNum 100)] default_config
         empty_world = Returned r
       ∧ let w' := world (subscribe 1 (world (subscribe 0 (world r)))) in
         let r' := act "score" 0 (Assign (VNum 10)) w' in
         (λ c, (lastValue c, history c, subscribers c)) <$> closures (world r') !! 1
         = Some (VNum 100, [VNum 100], [1])
         ∧ trace r' = [Next 0 (VNum 10)]
         ∧ Forall (λ e, ∀ o, addressee e = Some o → o ∉ [1]) (trace r').
Proof.
  eexists. split; [reflexivity |]. intros w' r'.
  destruct (group_properties_are_independent empty_world
              [("score", VNum 0); ("health", VNum 100)] default_config 0 1
              {| closure := 0; name := "score" |} {| closure := 1; name := "health" |} _
              ltac:(apply (bool_decide_unpack _); vm_compute; exact I)
              ltac:(apply (bool_decide_unpack _); vm_compute; exact I)
              ltac:(lia) eq_refl eq_refl eq_refl)
    as (_ & _ & _ & _ & H).
  destruct (H w' (Assign (VNum 10))
              {| propertyName := "health"; config := default_config;
                 lastValue := VNum 100;
                 subject := ReplaySubject.mk 1 [VNum 100] [1] false |})
    as (H1 & H2 & _);
    [apply (bool_decide_unpack _); vm_compute; exact I
    | vm_compute; reflexivity | vm_compute; reflexivity |].
  split; [| split; [vm_compute; reflexivity | exact H2]].
  change (closures (world r') !! 1 = Some
            {| propertyName := "health"; config := default_config;
               lastValue := VNum 100;
               subject := ReplaySubject.mk 1 [VNum 100] [1] false |}) in H1.
  rewrite H1. reflexivity.
Defined.

(** ** Well-formedness is invariant *)

Lemma trimBuffer_ok (s : ReplaySubject.t) :
  length (ReplaySubject._buffer (ReplaySubject._trimBuffer s))
  ≤ ReplaySubject._bufferSize (ReplaySubject._trimBuffer s).
Proof.
  destruct (trimBuffer_other s) as (-> & _).
  rewrite trimBuffer_buffer, most_recent_length. lia.
Qed.

Lemma next_ok (c : Closure) (v : value) :
  closure_ok c → closure_ok (with_subject (with_lastValue c v) (ReplaySubject.next v (subject c)).1).
Proof.
  intros (Hcap & Hlen). unfold closure_ok, capacity, history in *. simpl.
  unfold ReplaySubject.next. simpl.
  match goal with |- context [ReplaySubject._trimBuffer ?x] =>
    pose proof (trimBuffer_ok x) as Hok;
    destruct (trimBuffer_other x) as (Hb & _) end.
  split; [| exact Hok].
  rewrite Hb. by destruct (ReplaySubject.isStopped (subject c)).
Qed.

Lemma setter_ok (w : World) (id : nat) (v : value) :
  Forall closure_ok (closures w) → Forall closure_ok (closures (world (setter id v w))).
Proof.
  intros Hw. destruct (closures w !! id) as [c|] eqn:Hc.
  - destruct (rejects c v) eqn:Hr.
    + by rewrite (setter_rejected _ _ _ _ Hc Hr).
    + rewrite (setter_accepted _ _ _ _ Hc Hr), world_mk. simpl.
      apply Forall_insert; [done |]. apply next_ok.
      rewrite Forall_forall in Hw. apply Hw. by eapply list_elem_of_lookup_2.
  - unfold setter. by rewrite Hc.
Qed.

Lemma set_ok (w : World) (key : string) (v : value) :
  Forall closure_ok (closures w) → Forall closure_ok (closures (world (set key v w))).
Proof.
  intros Hw. unfold set. destruct (target w !! key) as [[d|id]|]; try done.
  by apply setter_ok.
Qed.

Lemma onSubject_ok (w : World) (id : nat)
    (f : ReplaySubject.t → ReplaySubject.t * list event) :
  (∀ c, closure_ok c → closure_ok (with_subject c (f (subject c)).1)) →
  Forall closure_ok (closures w) → Forall closure_ok (closures (world (onSubject id f w))).
Proof.
  intros Hf Hw. destruct (closures w !! id) as [c|] eqn:Hc.
  - rewrite (onSubject_found _ _ _ _ Hc), world_mk. simpl.
    apply Forall_insert; [done |]. apply Hf.
    rewrite Forall_forall in Hw. apply Hw. by eapply list_elem_of_lookup_2.
  - unfold onSubject. by rewrite Hc.
Qed.

Lemma subscribe_ok (o : subscriber) (c : Closure) :
  closure_ok c → closure_ok (with_subject c (ReplaySubject.subscribe o (subject c)).1).
Proof.
  intros (Hcap & Hlen). unfold closure_ok, capacity, history in *. simpl.
  unfold ReplaySubject.subscribe. simpl.
  pose proof (trimBuffer_ok (subject c)) as Hok.
  destruct (trimBuffer_other (subject c)) as (Hb & _ & Hst).
  destruct (ReplaySubject.isStopped (ReplaySubject._trimBuffer (subject c))); simpl;
    (split; [by rewrite Hb | done]).
Qed.

Lemma act_ok (w : World) (key : string) (id : nat) (a : action) :
  Forall closure_ok (closures w) → Forall closure_ok (closures (world (act key id a w))).
Proof.
  intros Hw. destruct a as [v| |o|]; [| rewrite act_subscribe, world_mk | |]; cbn [act].
  - by apply set_ok.
  - unfold subscribe.
    pose proof (onSubject_ok w id (ReplaySubject.subscribe (subscriberCount w))
                  (subscribe_ok (subscriberCount w)) Hw) as H.
    destruct (onSubject id _ w) as [[[] w1] e1]. by rewrite world_mk in *.
  - apply onSubject_ok; [| done]. by intros c (Hcap & Hlen).
  - apply onSubject_ok; [| done]. intros c (Hcap & Hlen).
    unfold closure_ok, capacity, history, ReplaySubject.complete in *. simpl.
    by destruct (ReplaySubject.isStopped (subject c)).
Qed.

Lemma act_bound (w : World) (key : string) (id : nat) (a : action) :
  accessors_bound w → accessors_bound (world (act key id a w)).
Proof.
  intros Hw.
  assert (Hon : ∀ f, accessors_bound (world (onSubject id f w))).
  { intros f. destruct (onSubject_frame w id f) as (Ht & _ & Hl & _).
    unfold accessors_bound. rewrite Ht.
    eapply map_Forall_impl; [exact Hw |]. intros k p Hp.
    eapply bound_in_length; [| exact Hp]. lia. }
  destruct a as [v| |o|]; [| rewrite act_subscribe, world_mk | |]; cbn [act].
  - by apply set_bound.
  - unfold subscribe. specialize (Hon (ReplaySubject.subscribe (subscriberCount w))).
    destruct (onSubject id _ w) as [[[] w1] e1]. by rewrite world_mk in *.
  - apply Hon.
  - apply Hon.
Qed.

Lemma fresh_closure_ok (key : string) (cfg : Config) (init : value) :
  closure_ok (fresh_closure key cfg init).
Proof. split; [reflexivity |]. apply seed_length. Qed.

Lemma created_well_formed (key : string) (init : value) (cfg : Config) (w : World) :
  well_formed w → well_formed (world (created key init cfg w)).
Proof.
  intros (Hb & Hf & Hok). split_and!.
  - by apply created_spec.
  - by apply created_fresh.
  - rewrite created_install, install_steps, world_mk.
    assert (Hd : Forall closure_ok
                   (closures (defined key (effectiveInitialValue key init cfg w) cfg w))).
    { simpl. apply Forall_app. split; [done |].
      constructor; [apply fresh_closure_ok | constructor]. }
    unfold attach. destruct (addAsObservableToTarget cfg); [by apply set_ok | done].
Qed.

Lemma initial_well_formed (fields : gmap string value) : well_formed (initial fields).
Proof.
  split_and!.
  - unfold accessors_bound, initial. simpl. apply map_Forall_fmap.
    by apply map_Forall_lookup_2.
  - split; constructor.
  - constructor.
Qed.

(** Every world a program reaches from a well-formed one is well formed. *)
Lemma exec_all_well_formed (cs : list command) (w : World) :
  well_formed w → well_formed (exec_all cs w).
Proof.
  revert w. induction cs as [|c cs IH]; intros w Hw; [done |].
  simpl. apply IH. destruct c as [key init cfg|key id a]; cbn [exec].
  - unfold bindT. rewrite createEchoProp_outcome.
    destruct (throws init cfg w); [done |].
    pose proof (created_well_formed key init cfg w Hw) as H.
    destruct (created key init cfg w) as [[h w1] e1]. by rewrite world_mk in *.
  - unfold lift. cbn [after]. destruct Hw as (Hb & Hf & Hok).
    split_and!; [by apply act_bound | by apply act_fresh | by apply act_ok].
Qed.

(** ** The current value over a whole run *)

Lemma current_one (cfg : Config) (cur v : value) :
  current cfg cur [Assign v] = (if accepts cfg cur v then v else cur)
  ∧ accepted cfg cur [Assign v] = (if accepts cfg cur v then [v] else []).
Proof. simpl. by destruct (accepts cfg cur v). Qed.

Lemma act_reads (w : World) (key : string) (id : nat) (cfg : Config) (cur : value)
    (a : action) :
  reads w key id cfg cur →
  reads (world (act key id a w)) key id cfg (current cfg cur [a]).
Proof.
  intros (Ht & c & Hc & Hcfg & Hcur).
  assert (Hlt : id < length (closures w)) by (by eapply lookup_lt_Some).
  destruct a as [v| |o|]; [| rewrite act_subscribe, world_mk | |]; cbn [act].
  - destruct (current_one cfg cur v) as (-> & _).
    destruct (accepts cfg cur v) eqn:Hacc.
    + assert (Hr : rejects c v = false) by (by rewrite rejects_accepts, Hcfg, Hcur, Hacc).
      destruct (set_accepted w key id c v Ht Hc Hr) as (Hw & _ & Hc' & _).
      split; [by rewrite Hw |]. eexists. split; [exact Hc' |]. done.
    + assert (Hr : rejects c v = true) by (by rewrite rejects_accepts, Hcfg, Hcur, Hacc).
      rewrite (set_accessor _ _ _ _ Ht), (setter_rejected _ _ _ _ Hc Hr), world_mk.
      split; [done |]. by exists c.
  - destruct (subscribe_spec w id c Hc) as (_ & _ & _ & Ht' & Hcl).
    split; [by rewrite Ht' |].
    eexists. split; [rewrite Hcl; by apply list_lookup_insert_eq |]. done.
  - unfold unsubscribe. rewrite (onSubject_found _ _ _ _ Hc), world_mk.
    split; [done |]. eexists. split; [simpl; by apply list_lookup_insert_eq |]. done.
  - unfold complete. rewrite (onSubject_found _ _ _ _ Hc), world_mk.
    split; [done |]. eexists. split; [simpl; by apply list_lookup_insert_eq |]. done.
Qed.

Lemma run_reads (w : World) (key : string) (id : nat) (cfg : Config) (cur : value)
    (acts : list action) :
  reads w key id cfg cur →
  reads (run key id acts w).1 key id cfg (current cfg cur acts).
Proof.
  revert w cur. induction acts as [|a acts IH]; intros w cur Hr; [done |].
  rewrite run_cons. simpl fst.
  destruct (accepted_cons cfg cur a acts) as (_ & ->).
  by apply IH, act_reads.
Qed.

Lemma reads_get (w : World) (key : string) (id : nat) (cfg : Config) (cur : value) :
  reads w key id cfg cur →
  result (get key w) = cur ∧ result (getter id w) = cur.
Proof.
  intros (Ht & c & Hc & _ & Hcur).
  rewrite (get_accessor _ _ _ Ht). unfold getter. by rewrite Hc.
Qed.

Lemma created_reads (w : World) (key : string) (init : value) (cfg : Config) :
  accessors_bound w →
  reads (world (created key init cfg w)) key (length (closures w)) cfg
        (effectiveInitialValue key init cfg w).
Proof.
  intros Hb. destruct (created_spec key init cfg w) as (_ & Ht & _ & _ & Hc).
  destruct (Hc Hb) as (Hc' & _). split; [exact Ht |]. eexists. split; [exact Hc' |]. done.
Qed.

(** X1: whatever is done to a property after its creation (writes accepted
    or rejected, subscriptions, completion), the handle and the target
    read the same value: the last accepted one, or the initial one. *)
Theorem handle_value_follows_target (w : World) (key : string) (init : value)
    (cfg : Config) (acts : list action) (r : Handle * World * list event) :
  accessors_bound w →
  createEchoProp key init cfg w = Returned r →
  let w' := (run key (closure (result r)) acts (world r)).1 in
  name (result r) = key
  ∧ result (Handle_value (result r) w') = result (get key w')
  ∧ result (get key w') = current cfg (effectiveInitialValue key init cfg w) acts.
Proof.
  intros Hb Hret. apply createEchoProp_returned in Hret as (_ & ->).
  set (r := created key init cfg w). intros w'.
  destruct (created_spec key init cfg w) as (Hr & _). fold r in Hr.
  pose proof (created_reads w key init cfg Hb) as H0. fold r in H0.
  subst w'. rewrite Hr. simpl.
  destruct (reads_get _ _ _ _ _ (run_reads _ _ _ _ _ acts H0)) as (Hg & Hv).
  unfold Handle_value. simpl. by rewrite Hg, Hv.
Qed.

Lemma handle_value_follows_target_witness :
  ∃ r, createEchoProp "testProp" (VNum 10) (validating increasing) empty_world = Returned r
       ∧ let w' := (run "testProp" 0
                      [Assign (VNum 15); Terminate; Assign (VNum 5); Assign (VNum 20)]
                      (world r)).1 in
         result (Handle_value (result r) w') = VNum 20
         ∧ result (get "testProp" w') = VNum 20.
Proof.
  eexists. split; [reflexivity |]. intros w'.
  destruct (handle_value_follows_target empty_world "testProp" (VNum 10)
              (validating increasing)
              [Assign (VNum 15); Terminate; Assign (VNum 5); Assign (VNum 20)] _
              ltac:(apply (bool_decide_unpack _); vm_compute; exact I) eq_refl)
    as (_ & H2 & H3).
  split; [| exact H3]. etransitivity; [exact H2 | exact H3].
Defined.

(** ** Runs without an accepted write *)

Lemma history_with_subject (c : Closure) (s : ReplaySubject.t) :
  history (with_subject c s) = ReplaySubject._buffer s.
Proof. reflexivity. Qed.

Lemma capacity_with_subject (c : Closure) (s : ReplaySubject.t) :
  capacity (with_subject c s) = ReplaySubject._bufferSize s.
Proof. reflexivity. Qed.

Lemma terminated_with_subject (c : Closure) (s : ReplaySubject.t) :
  terminated (with_subject c s) = ReplaySubject.isStopped s.
Proof. reflexivity. Qed.

Lemma subscribe_buffer (o : subscriber) (s : ReplaySubject.t) :
  length (ReplaySubject._buffer s) ≤ ReplaySubject._bufferSize s →
  ReplaySubject._buffer (ReplaySubject.subscribe o s).1 = ReplaySubject._buffer s
  ∧ ReplaySubject._bufferSize (ReplaySubject.subscribe o s).1 = ReplaySubject._bufferSize s
  ∧ ReplaySubject.isStopped (ReplaySubject.subscribe o s).1 = ReplaySubject.isStopped s
  ∧ ReplaySubject.observers (ReplaySubject.subscribe o s).1
    = (if ReplaySubject.isStopped s then ReplaySubject.observers s
       else ReplaySubject.observers s ++ [o]).
Proof.
  intros Hl. unfold ReplaySubject.subscribe. rewrite (trimBuffer_id s Hl). simpl.
  by destruct (ReplaySubject.isStopped s) eqn:E.
Qed.

Lemma act_holds (w : World) (key : string) (id : nat) (cfg : Config) (cur : value)
    (hist : list value) (a : action) :
  holds w key id cfg cur hist →
  quiet cfg cur [a] = true →
  holds (world (act key id a w)) key id cfg cur hist.
Proof.
  intros (Ht & c & Hc & Hcfg & Hcur & Hh & Hl) Hq.
  assert (Hlt : id < length (closures w)) by (by eapply lookup_lt_Some).
  unfold history, capacity in *. subst hist.
  destruct a as [v| |o|]; [| rewrite act_subscribe, world_mk | |]; cbn [act].
  - assert (Hr : rejects c v = true).
    { rewrite rejects_accepts, Hcfg, Hcur. simpl in Hq. by destruct (accepts cfg cur v). }
    rewrite (set_accessor _ _ _ _ Ht), (setter_rejected _ _ _ _ Hc Hr), world_mk.
    split; [done |]. by exists c.
  - destruct (subscribe_spec w id c Hc) as (_ & _ & _ & Ht' & Hcl).
    destruct (subscribe_buffer (subscriberCount w) (subject c) Hl) as (Hb & Hs & _).
    split; [by rewrite Ht' |].
    eexists. split; [rewrite Hcl; by apply list_lookup_insert_eq |].
    rewrite history_with_subject, capacity_with_subject, Hb, Hs. done.
  - unfold unsubscribe. rewrite (onSubject_found _ _ _ _ Hc), world_mk.
    split; [done |]. eexists. split; [simpl; by apply list_lookup_insert_eq |]. done.
  - unfold complete. rewrite (onSubject_found _ _ _ _ Hc), world_mk.
    destruct (complete_stops (subject c)) as (_ & _ & Hb & Hs).
    split; [done |]. eexists. split; [simpl; by apply list_lookup_insert_eq |].
    rewrite history_with_subject, capacity_with_subject, Hb, Hs. done.
Qed.

Lemma run_holds (w : World) (key : string) (id : nat) (cfg : Config) (cur : value)
    (hist : list value) (acts : list action) :
  holds w key id cfg cur hist →
  quiet cfg cur acts = true →
  holds (run key id acts w).1 key id cfg cur hist.
Proof.
  revert w. induction acts as [|a acts IH]; intros w Hh Hq; [done |].
  rewrite quiet_cons in Hq. apply andb_true_iff in Hq as [Hq1 Hq2].
  rewrite run_cons. simpl fst. apply IH; [| done]. by apply act_holds.
Qed.

Lemma rejecting_is_quiet (cfg : Config) (f : value → value → value) (cur : value)
    (acts : list action) :
  validate cfg = Some f → (∀ n o, truthy (f n o) = false) →
  quiet cfg cur acts = true.
Proof.
  intros Hv Hf. induction acts as [|[v| |o|] acts IH]; simpl; try done.
  unfold accepts. by rewrite Hv, Hf.
Qed.

Lemma created_holds (w : World) (key : string) (init : value) (cfg : Config) :
  accessors_bound w →
  holds (world (created key init cfg w)) key (length (closures w)) cfg
        (effectiveInitialValue key init cfg w)
        (seed (effectiveInitialValue key init cfg w)).
Proof.
  intros Hb. destruct (created_spec key init cfg w) as (_ & Ht & _ & _ & Hc).
  destruct (Hc Hb) as (Hc' & _). split; [exact Ht |].
  eexists. split; [exact Hc' |]. split_and!; try done.
  unfold capacity. simpl. apply seed_length.
Qed.

(** X2: with a validator whose verdict is always falsy the property cannot
    be changed after its creation: whatever is assigned, and whoever
    subscribes or completes the stream in between, the target and the
    handle read the initial value and the history holds what creation put
    there. *)
Theorem rejecting_validator_freezes_property (w : World) (key : string) (init : value)
    (cfg : Config) (f : value → value → value) (acts : list action)
    (r : Handle * World * list event) :
  accessors_bound w →
  validate cfg = Some f →
  (∀ n o, truthy (f n o) = false) →
  createEchoProp key init cfg w = Returned r →
  let init' := effectiveInitialValue key init cfg w in
  let w' := (run key (closure (result r)) acts (world r)).1 in
  result (get key w') = init'
  ∧ result (Handle_value (result r) w') = init'
  ∧ history <$> closures w' !! closure (result r) = Some (seed init').
Proof.
  intros Hb Hv Hf Hret. apply createEchoProp_returned in Hret as (_ & ->).
  set (r := created key init cfg w). intros init' w'.
  destruct (created_spec key init cfg w) as (Hr & _). fold r in Hr.
  pose proof (created_holds w key init cfg Hb) as H0. fold r init' in H0.
  subst w'. rewrite Hr. simpl.
  pose proof (run_holds _ _ _ _ _ _ acts H0 (rejecting_is_quiet cfg f init' acts Hv Hf))
    as (Ht & c & Hc & _ & Hcur & Hh & _).
  rewrite (get_accessor _ _ _ Ht). unfold Handle_value, getter. simpl.
  rewrite Hc. simpl. by rewrite Hcur, Hh.
Qed.

Lemma rejecting_validator_freezes_property_witness :
  ∃ r, createEchoProp "value" (VNum 3) (validating reject_all) empty_world = Returned r
       ∧ let w' := (run "value" 0
                      [Assign (VNum 4); Subscribe; Assign VNull; Terminate; Assign (VNum 3)]
                      (world r)).1 in
         result (get "value" w') = VNum 3
         ∧ history <$> closures w' !! 0 = Some [VNum 3].
Proof.
  eexists. split; [reflexivity |]. intros w'.
  destruct (rejecting_validator_freezes_property empty_world "value" (VNum 3)
              (validating reject_all) reject_all
              [Assign (VNum 4); Subscribe; Assign VNull; Terminate; Assign (VNum 3)] _
              ltac:(apply (bool_decide_unpack _); vm_compute; exact I)
              eq_refl ltac:(reflexivity) eq_refl)
    as (H1 & _ & H3).
  exact (conj H1 H3).
Defined.

(** X3: in every world a program reaches from a target of plain fields, by
    creating properties and acting on them in any order, the history of
    every property holds at most [replayCount] values, or one when
    [replayCount] is 0. *)
Theorem history_is_bounded (fields : gmap string value) (cs : list command) :
  Forall (λ c, length (history c) ≤ Nat.max 1 (replayCount (config c)))
         (closures (exec_all cs (initial fields))).
Proof.
  destruct (exec_all_well_formed cs (initial fields) (initial_well_formed fields))
    as (_ & _ & Hok).
  eapply Forall_impl; [exact Hok |]. intros c (Hcap & Hlen). by rewrite <- Hcap.
Qed.

(** ** Subscription order *)







(** ** Replay to a late subscriber *)







(** ** What a registered subscriber receives *)

Lemma deliveries_fanout (o : subscriber) (v : value) (l : list subscriber) :
  deliveries o ((λ x, Next x v) <$> l) = (λ _, v) <$> filter (λ x, x = o) l.
Proof.
  induction l as [|x l IH]; [done |].
  rewrite fmap_cons, filter_cons. cbn [deliveries].
  destruct (Nat.eqb_spec x o) as [E|E]; destruct (decide (x = o)); try done.
  by rewrite fmap_cons, IH.
Qed.

Lemma filter_eq_filter_ne (o o' : subscriber) (l : list subscriber) :
  o' ≠ o →
  filter (λ x, x = o) (filter (λ x, x ≠ o') l) = filter (λ x, x = o) l.
Proof.
  intros Hne. induction l as [|x l IH]; [done |].
  rewrite !filter_cons. destruct (decide (x ≠ o')) as [H1|H1].
  - rewrite filter_cons. destruct (decide (x = o)); by rewrite IH.
  - destruct (decide (x = o)) as [H2|H2]; [| exact IH].
    exfalso. apply H1. congruence.
Qed.

Lemma filter_eq_none (o : subscriber) (l : list subscriber) :
  o ∉ l → filter (λ x, x = o) l = [].
Proof.
  intros Hn. induction l as [|x l IH]; [done |].
  apply not_elem_of_cons in Hn as (Hne & Hn).
  rewrite filter_cons. destruct (decide (x = o)); [congruence | by apply IH].
Qed.

Lemma subscribe_registers (o : subscriber) (s : ReplaySubject.t) :
  ReplaySubject.isStopped (ReplaySubject.subscribe o s).1 = ReplaySubject.isStopped s
  ∧ ReplaySubject.observers (ReplaySubject.subscribe o s).1
    = (if ReplaySubject.isStopped s then ReplaySubject.observers s
       else ReplaySubject.observers s ++ [o]).
Proof.
  unfold ReplaySubject.subscribe.
  destruct (trimBuffer_other s) as (_ & Ho & Hst). simpl. rewrite Hst.
  destruct (ReplaySubject.isStopped s) eqn:E; simpl; by rewrite ?Hst, ?Ho.
Qed.

Lemma act_listening (w : World) (key : string) (id : nat) (cfg : Config) (cur : value)
    (o : subscriber) (a : action) :
  listening w key id cfg cur o →
  a ≠ Terminate → a ≠ Unsubscribe o →
  listening (world (act key id a w)) key id cfg (current cfg cur [a]) o
  ∧ deliveries o (trace (act key id a w)) = accepted cfg cur [a].
Proof.
  intros (Ht & (c & Hc & Hcfg & Hcur & Hlive & Ho) & Hlt) Hterm Hunsub.
  assert (Hid : id < length (closures w)) by (by eapply lookup_lt_Some).
  unfold terminated, subscribers in *.
  destruct a as [v| |o'|]; [| rewrite act_subscribe, world_mk, trace_mk | | done]; cbn [act].
  - destruct (current_one cfg cur v) as (-> & ->).
    destruct (accepts cfg cur v) eqn:Hacc.
    + assert (Hr : rejects c v = false) by (by rewrite rejects_accepts, Hcfg, Hcur, Hacc).
      destruct (set_accepted w key id c v Ht Hc Hr) as (Hw & Htr & Hc' & _).
      rewrite (next_live _ _ Hlive) in Hw, Htr, Hc'. simpl in Htr.
      split.
      * split_and!; [by rewrite Hw | | by rewrite Hw].
        eexists. split; [exact Hc' |]. done.
      * by rewrite Htr, deliveries_fanout, Ho.
    + assert (Hr : rejects c v = true) by (by rewrite rejects_accepts, Hcfg, Hcur, Hacc).
      rewrite (set_accessor _ _ _ _ Ht), (setter_rejected _ _ _ _ Hc Hr), world_mk, trace_mk.
      split; [| by destruct (log (config c))].
      split_and!; [done | | done]. by exists c.
  - destruct (subscribe_spec w id c Hc) as (_ & Htr & Hs & Ht' & Hcl).
    destruct (subscribe_registers (subscriberCount w) (subject c)) as (Hst & Hobs).
    rewrite Hlive in Hobs. split.
    + split_and!; [by rewrite Ht' | | lia].
      eexists. split; [rewrite Hcl; by apply list_lookup_insert_eq |].
      rewrite terminated_with_subject, subscribers_with_subject, Hst, Hobs, filter_app, Ho.
      split_and!; try done.
      rewrite filter_cons, filter_nil. by rewrite decide_False by lia.
    + rewrite Htr, deliveries_app, deliveries_next_other by lia.
      unfold terminated. by rewrite Hlive.
  - unfold unsubscribe. rewrite (onSubject_found _ _ _ _ Hc), world_mk, trace_mk.
    split; [| done]. split_and!; [done | | done].
    eexists. split; [simpl; by apply list_lookup_insert_eq |].
    rewrite terminated_with_subject, subscribers_with_subject. simpl.
    split_and!; try done. rewrite filter_eq_filter_ne; [done | congruence].
Qed.

Lemma run_listening (w : World) (key : string) (id : nat) (cfg : Config) (cur : value)
    (o : subscriber) (acts : list action) :
  listening w key id cfg cur o →
  live acts → keeps o acts →
  deliveries o (events_of (run key id acts w).2) = accepted cfg cur acts.
Proof.
  intros Hl Hlive. revert w cur Hl.
  induction Hlive as [|a acts Ha Hlive IH]; intros w cur Hl Hk; [done |].
  apply Forall_cons in Hk as (Hk1 & Hk2).
  destruct (act_listening w key id cfg cur o a Hl Ha Hk1) as (Hl' & Hd).
  destruct (accepted_cons cfg cur a acts) as (-> & _).
  rewrite run_cons. unfold events_of. cbn [snd fmap list_fmap concat].
  rewrite deliveries_app, Hd. f_equal. by apply IH.
Qed.

Lemma subscribed_listening (w : World) (key : string) (id : nat) (c : Closure) :
  target w !! key = Some (AccessorProperty id) →
  closures w !! id = Some c →
  terminated c = false →
  observers_fresh w →
  listening (world (subscribe id w)) key id (config c) (lastValue c) (subscriberCount w).
Proof.
  intros Ht Hc Hlive Hf.
  assert (Hid : id < length (closures w)) by (by eapply lookup_lt_Some).
  destruct (subscribe_spec w id c Hc) as (_ & _ & Hs & Ht' & Hcl).
  destruct (subscribe_registers (subscriberCount w) (subject c)) as (Hst & Hobs).
  unfold terminated in Hlive. rewrite Hlive in Hobs.
  split_and!; [by rewrite Ht' | | lia].
  eexists. split; [rewrite Hcl; by apply list_lookup_insert_eq |].
  rewrite terminated_with_subject, subscribers_with_subject, Hst, Hobs, filter_app.
  split_and!; try done.
  rewrite filter_eq_none.
  - rewrite filter_cons, filter_nil. by rewrite decide_True.
  - intros Hin. pose proof (subscribers_made w id c _ Hf Hc Hin). lia.
Qed.

Lemma accepted_chain (cfg : Config) (cur : value) (acts : list action) :
  chain cfg cur (accepted cfg cur acts).
Proof.
  revert cur. induction acts as [|[v| |o|] acts IH]; intros cur; simpl; try done.
  destruct (accepts cfg cur v) eqn:E; [| done]. simpl. done.
Qed.

(** X4: a subscriber that registers with a property whose stream has not
    been completed is first replayed the history and then delivered
    exactly the values accepted afterwards, in the order they are written,
    as long as the stream is not completed and the subscription not
    ended. *)
Theorem subscriber_receives_accepted_values (w : World) (key : string) (id : nat)
    (c : Closure) (acts : list action) :
  target w !! key = Some (AccessorProperty id) →
  closures w !! id = Some c →
  terminated c = false →
  observers_fresh w →
  live acts →
  keeps (subscriberCount w) acts →
  let s := subscribe id w in
  deliveries (result s) (trace s ++ events_of (run key id acts (world s)).2)
  = most_recent (capacity c) (history c) ++ accepted (config c) (lastValue c) acts.
Proof.
  intros Ht Hc Hlive Hf Hacts Hk s.
  destruct (subscribe_spec w id c Hc) as (Hr & Htr & _). fold s in Hr, Htr.
  rewrite deliveries_app, Hr, Htr, Hlive, app_nil_r, deliveries_next_same. f_equal.
  apply run_listening; [| done | done]. by apply subscribed_listening.
Qed.

Lemma subscriber_receives_accepted_values_witness :
  let w := after (createEchoProp "value" (VNum 5) (validating at_least_5) empty_world) in
  let s := subscribe 0 w in
  deliveries 0 (trace s ++ events_of
     (run "value" 0 [Assign (VNum 10); Assign (VNum 2); Subscribe; Assign (VNum 15)]
        (world s)).2)
  = [VNum 5; VNum 10; VNum 15].
Proof.
  intros w s.
  apply (subscriber_receives_accepted_values w "value" 0
           {| propertyName := "value"; config := validating at_least_5;
              lastValue := VNum 5;
              subject := ReplaySubject.mk 1 [VNum 5] [] false |}
           [Assign (VNum 10); Assign (VNum 2); Subscribe; Assign (VNum 15)]);
    [reflexivity | reflexivity | reflexivity
    | apply (bool_decide_unpack _); vm_compute; exact I ..].
Defined.

(** X5: the values a registered subscriber is delivered by writes were
    each accepted by the validator against the value delivered before it,
    the first against the value the property read when the subscriber
    registered. *)
Theorem delivered_values_pass_validation (w : World) (key : string) (id : nat)
    (c : Closure) (acts : list action) :
  target w !! key = Some (AccessorProperty id) →
  closures w !! id = Some c →
  terminated c = false →
  observers_fresh w →
  live acts →
  keeps (subscriberCount w) acts →
  let s := subscribe id w in
  chain (config c) (lastValue c)
        (deliveries (result s) (events_of (run key id acts (world s)).2)).
Proof.
  intros Ht Hc Hlive Hf Hacts Hk s.
  destruct (subscribe_spec w id c Hc) as (Hr & _). fold s in Hr. rewrite Hr.
  rewrite (run_listening _ key id (config c) (lastValue c)); [| | done | done].
  - apply accepted_chain.
  - by apply subscribed_listening.
Qed.

Lemma delivered_values_pass_validation_witness :
  let w := after (createEchoProp "testProp" (VNum 10) (validating increasing) empty_world) in
  let s := subscribe 0 w in
  chain (validating increasing) (VNum 10)
        (deliveries 0 (events_of
           (run "testProp" 0 [Assign (VNum 15); Assign (VNum 5); Assign (VNum 20)]
              (world s)).2)).
Proof.
  intros w s.
  apply (delivered_values_pass_validation w "testProp" 0
           {| propertyName := "testProp"; config := validating increasing;
              lastValue := VNum 10;
              subject := ReplaySubject.mk 1 [VNum 10] [] false |}
           [Assign (VNum 15); Assign (VNum 5); Assign (VNum 20)]);
    [reflexivity | reflexivity | reflexivity
    | apply (bool_decide_unpack _); vm_compute; exact I ..].
Defined.

(** ** After a subscription has ended *)

Lemma deliveries_not_addressed (o : subscriber) (evs : list event) :
  Forall (λ e, addressee e ≠ Some o) evs → deliveries o evs = [].
Proof.
  induction 1 as [|e evs He _ IH]; [done |].
  destruct e as [s v|s|m]; cbn [deliveries]; try done.
  destruct (Nat.eqb_spec s o) as [->|]; [by destruct He | done].
Qed.

Lemma act_detached (w : World) (key : string) (id : nat) (o : subscriber) (a : action) :
  detached w key id o →
  detached (world (act key id a w)) key id o
  ∧ deliveries o (trace (act key id a w)) = [].
Proof.
  intros (Ht & (c & Hc & Ho) & Hlt).
  assert (Hid : id < length (closures w)) by (by eapply lookup_lt_Some).
  split.
  - destruct a as [v| |o'|]; [| rewrite act_subscribe, world_mk | |]; cbn [act].
    + destruct (rejects c v) eqn:Hr.
      * rewrite (set_accessor _ _ _ _ Ht), (setter_rejected _ _ _ _ Hc Hr), world_mk.
        split_and!; [done | by exists c | done].
      * destruct (set_accepted w key id c v Ht Hc Hr) as (Hw & _ & Hc' & _).
        split_and!; [by rewrite Hw | | by rewrite Hw].
        eexists. split; [exact Hc' |].
        by rewrite subscribers_with_subject, next_observers.
    + destruct (subscribe_spec w id c Hc) as (_ & _ & Hs & Ht' & Hcl).
      destruct (subscribe_registers (subscriberCount w) (subject c)) as (_ & Hobs).
      split_and!; [by rewrite Ht' | | lia].
      eexists. split; [rewrite Hcl; by apply list_lookup_insert_eq |].
      rewrite subscribers_with_subject, Hobs.
      destruct (ReplaySubject.isStopped (subject c)); [done |].
      apply not_elem_of_app. split; [done |].
      apply not_elem_of_cons. split; [lia | apply not_elem_of_nil].
    + unfold unsubscribe. rewrite (onSubject_found _ _ _ _ Hc), world_mk.
      split_and!; [done | | done].
      eexists. split; [simpl; by apply list_lookup_insert_eq |].
      rewrite subscribers_with_subject. simpl.
      intros Hin. apply list_elem_of_filter in Hin as (_ & Hin). by apply Ho.
    + unfold complete. rewrite (onSubject_found _ _ _ _ Hc), world_mk.
      split_and!; [done | | done].
      eexists. split; [simpl; by apply list_lookup_insert_eq |].
      rewrite subscribers_with_subject.
      destruct (complete_stops (subject c)) as (_ & -> & _).
      destruct (ReplaySubject.isStopped (subject c)); [done | apply not_elem_of_nil].
  - apply deliveries_not_addressed.
    eapply Forall_impl; [by apply act_addressees |].
    intros e He Hadd. destruct (He o Hadd) as [(c' & Hc' & Hin) | Heq]; [| lia].
    rewrite Hc in Hc'. simplify_eq. by apply Ho.
Qed.

Lemma run_detached (w : World) (key : string) (id : nat) (o : subscriber)
    (acts : list action) :
  detached w key id o →
  deliveries o (events_of (run key id acts w).2) = [].
Proof.
  revert w. induction acts as [|a acts IH]; intros w Hd; [done |].
  destruct (act_detached w key id o a Hd) as (Hd' & He).
  rewrite run_cons. unfold events_of. cbn [snd fmap list_fmap concat].
  rewrite deliveries_app, He. by apply IH.
Qed.

(** X6: once a subscription is ended, its subscriber is delivered no
    further value, whatever is written, whoever else subscribes and
    whether or not the stream is completed. *)
Theorem unsubscribed_receives_nothing (w : World) (key : string) (id : nat)
    (c : Closure) (o : subscriber) (acts : list action) :
  target w !! key = Some (AccessorProperty id) →
  closures w !! id = Some c →
  o < subscriberCount w →
  let w1 := world (unsubscribe id o w) in
  deliveries o (events_of (run key id acts w1).2) = [].
Proof.
  intros Ht Hc Ho w1.
  assert (Hid : id < length (closures w)) by (by eapply lookup_lt_Some).
  apply run_detached. subst w1. unfold unsubscribe.
  rewrite (onSubject_found _ _ _ _ Hc), world_mk.
  split_and!; [done | | done].
  eexists. split; [simpl; by apply list_lookup_insert_eq |].
  rewrite subscribers_with_subject. simpl.
  intros Hin. apply list_elem_of_filter in Hin as (Hne & _). by apply Hne.
Qed.

Lemma unsubscribed_receives_nothing_witness :
  let w := world (subscribe 0 (after (createEchoProp "observableProp" (VNum 100)
                                        default_config empty_world))) in
  let w1 := world (unsubscribe 0 0 w) in
  deliveries 0 (trace (set "observableProp" (VNum 200) w)) = [VNum 200]
  ∧ deliveries 0 (events_of (run "observableProp" 0 [Assign (VNum 300); Subscribe] w1).2) = [].
Proof.
  intros w w1. split; [vm_compute; reflexivity |].
  apply (unsubscribed_receives_nothing w "observableProp" 0
           {| propertyName := "observableProp"; config := default_config;
              lastValue := VNum 100;
              subject := ReplaySubject.mk 1 [VNum 100] [0] false |} 0
           [Assign (VNum 300); Subscribe]);
    [reflexivity | reflexivity | vm_compute; lia].
Defined.

(** ** Completing twice *)

Lemma with_subject_same (c : Closure) : with_subject c (subject c) = c.
Proof. by destruct c. Qed.

Lemma with_closures_same (w : World) : with_closures w (closures w) = w.
Proof. by destruct w. Qed.

(** X7: [complete] is final: a second call changes nothing and signals
    nobody. *)
Theorem complete_is_idempotent (w : World) (h : Handle) (c : Closure) :
  closures w !! closure h = Some c →
  let w1 := world (Handle_complete h w) in
  Handle_complete h w1 = (tt, w1, []).
Proof.
  intros Hc w1.
  assert (Hid : closure h < length (closures w)) by (by eapply lookup_lt_Some).
  subst w1. unfold Handle_complete, complete.
  rewrite (onSubject_found _ _ _ _ Hc), world_mk.
  set (c1 := with_subject c (ReplaySubject.complete (subject c)).1).
  set (w1 := with_closures w (<[closure h:=c1]> (closures w))).
  assert (Hc1 : closures w1 !! closure h = Some c1)
    by (subst w1; simpl; by apply list_lookup_insert_eq).
  rewrite (onSubject_found _ _ _ _ Hc1).
  destruct (complete_stops (subject c)) as (Hst & _).
  assert (Hagain : ReplaySubject.complete (subject c1) = (subject c1, [])).
  { unfold ReplaySubject.complete. subst c1. simpl. by rewrite Hst. }
  rewrite Hagain. cbn [fst snd]. rewrite with_subject_same.
  rewrite (list_insert_id _ _ _ Hc1). by rewrite with_closures_same.
Qed.

Lemma complete_is_idempotent_witness :
  let w := world (subscribe 0 (after (createEchoProp "value" (VNum 0) default_config
                                        empty_world))) in
  let h := {| closure := 0; name := "value" |} in
  trace (Handle_complete h w) = [Complete 0]
  ∧ Handle_complete h (world (Handle_complete h w)) = (tt, world (Handle_complete h w), []).
Proof.
  intros w h. split; [vm_compute; reflexivity |].
  apply (complete_is_idempotent w h
           {| propertyName := "value"; config := default_config; lastValue := VNum 0;
              subject := ReplaySubject.mk 1 [VNum 0] [0] false |}).
  reflexivity.
Defined.

(** ** What creation touches *)

Lemma plain_dollar_ne (w : World) (key : string) :
  plain_dollar w key ↔ ∀ j, target w !! (key +:+ "$") ≠ Some (AccessorProperty j).
Proof.
  unfold plain_dollar. destruct (target w !! (key +:+ "$")) as [[v|id]|]; split; try done.
  intros H. by apply (H id).
Qed.

Lemma created_frame (w : World) (key : string) (init : value) (cfg : Config) :
  let r := created key init cfg w in
  (∀ k, k ≠ key → k ≠ key +:+ "$" → target (world r) !! k = target w !! k)
  ∧ (addAsObservableToTarget cfg = false →
     target (world r) !! (key +:+ "$") = target w !! (key +:+ "$"))
  ∧ (∀ j, j < length (closures w) →
          target w !! (key +:+ "$") ≠ Some (AccessorProperty j) →
          closures (world r) !! j = closures w !! j)
  ∧ (plain_dollar w key →
     trace r = []
     ∧ closures (world r)
       = closures w ++ [fresh_closure key cfg (effectiveInitialValue key init cfg w)])
  ∧ subscriberCount (world r) = subscriberCount w.
Proof.
  intros r. subst r. rewrite created_install, install_steps, !world_mk, trace_mk.
  set (init' := effectiveInitialValue key init cfg w).
  destruct (defined_facts key init' cfg w) as (_ & _ & _ & Hk & Hj & _).
  unfold attach. destruct (addAsObservableToTarget cfg) eqn:Ha.
  - destruct (set_frame (defined key init' cfg w) (key +:+ "$")
                (VObservable (length (closures w))))
      as (Hs & _ & Hother & Hcl & _ & Hdata).
    split_and!.
    + intros k Hk1 Hk2. rewrite Hother by done. by apply Hk.
    + done.
    + intros j Hlt Hne. rewrite Hcl; [by apply Hj |].
      by rewrite Hk by apply append_dollar_ne.
    + intros Hp. destruct Hdata as (_ & Hc & He); [| by rewrite He, Hc].
      intros j. rewrite Hk by apply append_dollar_ne. by apply plain_dollar_ne.
    + by rewrite Hs.
  - unfold ret. rewrite world_mk, trace_mk. split_and!; try done.
    + intros k Hk1 _. by apply Hk.
    + intros _. apply Hk, append_dollar_ne.
    + intros j Hlt _. by apply Hj.
Qed.

(** X8: creating a property touches two fields of the target at most,
    [key] and [key + "$"] (the second only with [addAsObservableToTarget]);
    an existing property keeps its state unless its accessor pair sits at
    [key + "$"]; and when that field is not an accessor pair, creation
    notifies and warns nobody and adds exactly one closure. *)
Theorem creation_touches_two_fields (w : World) (key : string) (init : value)
    (cfg : Config) (r : Handle * World * list event) :
  createEchoProp key init cfg w = Returned r →
  (∀ k, k ≠ key → k ≠ key +:+ "$" → target (world r) !! k = target w !! k)
  ∧ (addAsObservableToTarget cfg = false →
     target (world r) !! (key +:+ "$") = target w !! (key +:+ "$"))
  ∧ (∀ j, j < length (closures w) →
          target w !! (key +:+ "$") ≠ Some (AccessorProperty j) →
          closures (world r) !! j = closures w !! j)
  ∧ (plain_dollar w key →
     trace r = []
     ∧ closures (world r)
       = closures w ++ [fresh_closure key cfg (effectiveInitialValue key init cfg w)])
  ∧ subscriberCount (world r) = subscriberCount w
  ∧ target (world r) !! key = Some (AccessorProperty (closure (result r)))
  ∧ length (closures (world r)) = S (length (closures w)).
Proof.
  intros Hret. apply createEchoProp_returned in Hret as (_ & ->).
  set (r := created key init cfg w).
  destruct (created_frame w key init cfg) as (H1 & H2 & H3 & H4 & H5).
  destruct (created_spec key init cfg w) as (Hr & Ht & Hl & _).
  fold r in H1, H2, H3, H4, H5, Hr, Ht, Hl.
  split_and!; try done. by rewrite Hr.
Qed.

Lemma creation_touches_two_fields_witness :
  let w := after (createEchoProp "score" (VNum 0) default_config
                    (initial {[ "lives" := VNum 3 ]})) in
  ∃ r, createEchoProp "health" (VNum 100) default_config w = Returned r
       ∧ target (world r) !! "lives" = Some (DataProperty (VNum 3))
       ∧ target (world r) !! "score" = Some (AccessorProperty 0)
       ∧ closures (world r) !! 0 = closures w !! 0
       ∧ trace r = [].
Proof.
  intros w. eexists. split; [reflexivity |].
  destruct (creation_touches_two_fields w "health" (VNum 100) default_config _ eq_refl)
    as (H1 & _ & H3 & H4 & _ & _ & _).
  split_and!.
  - rewrite (H1 "lives"); [reflexivity | discriminate | discriminate].
  - rewrite (H1 "score"); [reflexivity | discriminate | discriminate].
  - apply H3; [vm_compute; lia | vm_compute; discriminate].
  - apply H4. apply (bool_decide_unpack _). vm_compute. exact I.
Defined.

(** ** A property named like the observable field of another *)

(** X9: when [key + "$"] already is a property made by [createEchoProp],
    creating [key] with [addAsObservableToTarget] assigns the observable
    through that property's setter: the field stays an accessor pair, the
    observable becomes that property's value and is sent to its
    subscribers if its validator accepts it, and is dropped otherwise. *)
Theorem observable_goes_through_existing_setter (w : World) (key : string) (init : value)
    (cfg : Config) (j : nat) (cj : Closure) (r : Handle * World * list event) :
  addAsObservableToTarget cfg = true →
  target w !! (key +:+ "$") = Some (AccessorProperty j) →
  closures w !! j = Some cj →
  createEchoProp key init cfg w = Returned r →
  let obs := Handle_asObservable (result r) in
  target (world r) !! (key +:+ "$") = Some (AccessorProperty j)
  ∧ result (get (key +:+ "$") (world r))
    = (if accepts (config cj) (lastValue cj) obs then obs else lastValue cj)
  ∧ trace r
    = (if accepts (config cj) (lastValue cj) obs
       then (if terminated cj then [] else (λ o, Next o obs) <$> subscribers cj)
       else (if log (config cj) then [Warn (warning (propertyName cj))] else [])).
Proof.
  intros Ha Ht Hc Hret obs. apply createEchoProp_returned in Hret as (_ & ->). subst obs.
  rewrite created_install, install_steps, result_mk, !world_mk, trace_mk.
  unfold Handle_asObservable. cbn [closure].
  set (init' := effectiveInitialValue key init cfg w).
  set (id := length (closures w)).
  assert (Hj : j < length (closures w)) by (by eapply lookup_lt_Some).
  destruct (defined_facts key init' cfg w) as (_ & _ & _ & Hk & Hcl & _).
  assert (Ht' : target (defined key init' cfg w) !! (key +:+ "$") = Some (AccessorProperty j))
    by (rewrite Hk by apply append_dollar_ne; exact Ht).
  assert (Hc' : closures (defined key init' cfg w) !! j = Some cj)
    by (rewrite Hcl by exact Hj; exact Hc).
  unfold attach. rewrite Ha.
  destruct (set_frame (defined key init' cfg w) (key +:+ "$") (VObservable id))
    as (_ & _ & _ & _ & Hsame & _).
  split; [by rewrite (Hsame j Ht') |].
  destruct (accepts (config cj) (lastValue cj) (VObservable id)) eqn:Hacc.
  - assert (Hr : rejects cj (VObservable id) = false) by (by rewrite rejects_accepts, Hacc).
    destruct (set_accepted _ _ _ _ _ Ht' Hc' Hr) as (_ & Htr & _ & Hg & _).
    split; [exact Hg |]. rewrite Htr. unfold terminated, subscribers.
    destruct (ReplaySubject.isStopped (subject cj)) eqn:Hs.
    + by destruct (next_stopped_events (VObservable id) _ Hs) as (-> & _).
    + by rewrite (next_live _ _ Hs).
  - assert (Hr : rejects cj (VObservable id) = true) by (by rewrite rejects_accepts, Hacc).
    rewrite (set_accessor _ _ _ _ Ht'), (setter_rejected _ _ _ _ Hc' Hr), world_mk, trace_mk.
    split; [| done]. rewrite (get_accessor _ _ _ Ht'). unfold getter. by rewrite Hc'.
Qed.

Lemma observable_goes_through_existing_setter_witness :
  let w := world (subscribe 0 (after (createEchoProp "a$" (VNum 1) default_config
                                        empty_world))) in
  ∃ r, createEchoProp "a" (VNum 2) default_config w = Returned r
       ∧ target (world r) !! "a$" = Some (AccessorProperty 0)
       ∧ result (get "a$" (world r)) = VObservable 1
       ∧ trace r = [Next 0 (VObservable 1)].
Proof.
  intros w. eexists. split; [reflexivity |].
  exact (observable_goes_through_existing_setter w "a" (VNum 2) default_config 0
           {| propertyName := "a$"; config := default_config; lastValue := VNum 1;
              subject := ReplaySubject.mk 1 [VNum 1] [0] false |} _
           eq_refl eq_refl eq_refl eq_refl).
Defined.

(** ** Creating a property again *)

(** X10: on a target without an own field named "hasOwnProperty",
    creating a property at a name that already is one, without an initial
    value and with [useExistingValueAsInitial], returns, adopts the current
    value of the old property and binds the name to the new closure; from
    then on an assignment to the name does not reach the old property. *)
Theorem recreation_adopts_and_rebinds (w : World) (key : string) (init : value)
    (cfg : Config) (j : nat) (cj : Closure) (v : value) :
  accessors_bound w →
  target w !! "hasOwnProperty" = None →
  target w !! key = Some (AccessorProperty j) →
  closures w !! j = Some cj →
  nullish init = true →
  useExistingValueAsInitial cfg = true →
  ∃ r, createEchoProp key init cfg w = Returned r
       ∧ result (Handle_value (result r) (world r)) = lastValue cj
       ∧ target (world r) !! key = Some (AccessorProperty (closure (result r)))
       ∧ closure (result r) ≠ j
       ∧ closures (world (set key v (world r))) !! j = closures (world r) !! j.
Proof.
  intros Hb Hs Ht Hc Hn Hu. exists (created key init cfg w).
  split; [apply createEchoProp_returns; unfold throws; by rewrite Hs, andb_false_r |].
  set (r := created key init cfg w).
  assert (Hj : j < length (closures w)) by (by eapply lookup_lt_Some).
  assert (HV : effectiveInitialValue key init cfg w = lastValue cj).
  { unfold effectiveInitialValue. rewrite Hu, Hn, Ht. simpl.
    rewrite (get_accessor _ _ _ Ht). unfold getter. by rewrite Hc. }
  destruct (created_spec key init cfg w) as (Hr & Ht' & _). fold r in Hr, Ht'.
  pose proof (created_reads w key init cfg Hb) as Hreads. fold r in Hreads.
  rewrite HV in Hreads. destruct (reads_get _ _ _ _ _ Hreads) as (_ & Hv).
  rewrite Hr. cbn [closure]. unfold Handle_value. cbn [closure].
  split_and!; [exact Hv | exact Ht' | lia |].
  rewrite (set_accessor _ _ _ _ Ht'). apply setter_frame. lia.
Qed.

Lemma recreation_adopts_and_rebinds_witness :
  let w := world (set "value" (VNum 8) (after (createEchoProp "value" (VNum 7)
                                                 default_config empty_world))) in
  ∃ r, createEchoProp "value" VUndefined default_config w = Returned r
       ∧ result (Handle_value (result r) (world r)) = VNum 8
       ∧ result (getter 0 (world (set "value" (VNum 9) (world r)))) = VNum 8
       ∧ result (get "value" (world (set "value" (VNum 9) (world r)))) = VNum 9.
Proof.
  intros w.
  destruct (recreation_adopts_and_rebinds w "value" VUndefined default_config 0
              {| propertyName := "value"; config := default_config; lastValue := VNum 8;
                 subject := ReplaySubject.mk 1 [VNum 8] [] false |} (VNum 9))
    as (r & Hr & H1 & _ & _ & H4);
    [apply (bool_decide_unpack _); vm_compute; exact I | reflexivity .. |].
  exists r. split; [exact Hr |]. split; [exact H1 |].
  apply createEchoProp_returned in Hr as (_ & ->).
  split; [| vm_compute; reflexivity].
  unfold getter. rewrite H4. vm_compute. reflexivity.
Defined.

(** ** No initial value *)



(** ** A group on independent names *)

Lemma append_dollar_inj (a b : string) : a +:+ "$" = b +:+ "$" → a = b.
Proof.
  revert b. induction a as [|x a IH]; intros [|y b] H; simpl in H.
  - done.
  - simplify_eq. destruct b; discriminate.
  - simplify_eq. destruct a; discriminate.
  - simplify_eq. f_equal. by apply IH.
Qed.

Lemma effectiveInitialValue_frame (w w' : World) (key : string) (init : value)
    (cfg : Config) :
  target w' !! key = target w !! key →
  (∀ j, target w !! key = Some (AccessorProperty j) →
        closures w' !! j = closures w !! j) →
  effectiveInitialValue key init cfg w' = effectiveInitialValue key init cfg w.
Proof.
  intros Ht Hc. unfold effectiveInitialValue, get, getter. rewrite Ht.
  destruct (target w !! key) as [[v|j]|] eqn:E; try done.
  rewrite (Hc j eq_refl). by destruct (closures w !! j).
Qed.

Lemma independent_names_spec (keys : list string) (a b : string) :
  independent_names keys → a ∈ keys → b ∈ keys → a ≠ b +:+ "$".
Proof.
  intros H Ha Hb. unfold independent_names in H.
  rewrite Forall_forall in H. specialize (H a Ha).
  rewrite Forall_forall in H. by apply H.
Qed.

Lemma independent_names_tail (key : string) (keys : list string) :
  independent_names (key :: keys) → independent_names keys.
Proof.
  intros H. apply Forall_forall. intros a Ha. apply Forall_forall. intros b Hb.
  apply (independent_names_spec (key :: keys)); [done | | ]; by apply elem_of_cons; right.
Qed.

Lemma created_all_plain (book : list (string * value)) (cfg : Config) (w : World) :
  accessors_bound w →
  NoDup (fst <$> book) →
  independent_names (fst <$> book) →
  Forall (plain_dollar w) (fst <$> book) →
  let r := created_all book cfg w in
  trace r = []
  ∧ (∀ j, j < length (closures w) → closures (world r) !! j = closures w !! j)
  ∧ ∀ k key init, book !! k = Some (key, init) →
      closures (world r) !! (length (closures w) + k)
      = Some (fresh_closure key cfg (effectiveInitialValue key init cfg w)).
Proof.
  revert w. induction book as [|[key0 init0] book IH]; intros w Hb Hnd Hind Hplain r.
  - subst r. unfold createEchoProps. simpl. split_and!; done.
  - subst r. rewrite created_all_cons, trace_mk, world_mk.
    rewrite fmap_cons in Hnd, Hind, Hplain. cbn [fst] in Hnd, Hind, Hplain.
    apply NoDup_cons in Hnd as (Hnin & Hnd).
    apply Forall_cons in Hplain as (Hp0 & Hplain).
    destruct (created_frame w key0 init0 cfg) as (Hother & _ & _ & Hquiet & _).
    destruct (Hquiet Hp0) as (Htr & Hcl).
    destruct (created_spec key0 init0 cfg w) as (_ & _ & Hlen & _ & Hbound).
    destruct (Hbound Hb) as (_ & Hb1).
    set (w1 := world (created key0 init0 cfg w)) in *.
    assert (Hkeys : ∀ key', key' ∈ fst <$> book →
              key' ≠ key0 ∧ key' ≠ key0 +:+ "$" ∧ key' +:+ "$" ≠ key0
              ∧ key' +:+ "$" ≠ key0 +:+ "$").
    { intros key' Hin. assert (Hne : key' ≠ key0) by (intros ->; done).
      split_and!; [done | | |].
      - apply (independent_names_spec _ _ _ Hind); apply elem_of_cons; auto.
      - intros E. symmetry in E. revert E.
        apply (independent_names_spec _ _ _ Hind); apply elem_of_cons; auto.
      - intros E. by apply append_dollar_inj in E. }
    assert (Hplain1 : Forall (plain_dollar w1) (fst <$> book)).
    { rewrite Forall_forall in Hplain. apply Forall_forall. intros key' Hin.
      destruct (Hkeys key' Hin) as (_ & _ & H3 & H4).
      unfold plain_dollar. rewrite (Hother _ H3 H4). by apply Hplain. }
    destruct (IH w1 Hb1 Hnd (independent_names_tail _ _ Hind) Hplain1)
      as (IHtr & IHold & IHnew).
    split_and!.
    + by rewrite Htr, IHtr.
    + intros j Hj. rewrite IHold by lia. rewrite Hcl. by apply lookup_app_l.
    + intros k key init Hk. destruct k as [|k]; simpl in Hk.
      * simplify_eq. rewrite Nat.add_0_r, IHold by lia.
        rewrite Hcl. by apply list_lookup_middle.
      * rewrite <- (effectiveInitialValue_frame w w1 key init cfg).
        -- rewrite <- (IHnew k key init Hk). f_equal. lia.
        -- assert (Hin : key ∈ fst <$> book).
           { apply list_elem_of_fmap. exists (key, init). split; [done |].
             by eapply list_elem_of_lookup_2. }
           destruct (Hkeys key Hin) as (H1 & H2 & _). by apply Hother.
        -- intros j Hacc. rewrite Hcl. apply lookup_app_l.
           exact (map_Forall_lookup_1 _ _ _ _ Hb Hacc).
Qed.

Lemma dollar_not_hasOwnProperty (key : string) : "hasOwnProperty" ≠ key +:+ "$".
Proof.
  intros E. do 15 (destruct key as [|? key]; [cbv in E; discriminate |]).
  cbv in E. discriminate.
Qed.

(** A group whose names do not include "hasOwnProperty", on a target
    without such a field: no call throws. *)
Lemma group_returns (book : list (string * value)) (cfg : Config) (w : World) :
  target w !! "hasOwnProperty" = None →
  "hasOwnProperty" ∉ fst <$> book →
  group_throws book cfg w = false.
Proof.
  revert w. induction book as [|[key init] book IH]; intros w Hs Hnin; [done |].
  rewrite fmap_cons in Hnin. cbn [fst] in Hnin.
  apply not_elem_of_cons in Hnin as (Hne & Hnin).
  cbn [group_throws]. unfold throws at 1. rewrite Hs, andb_false_r. cbn [orb].
  apply IH; [| done].
  destruct (created_frame w key init cfg) as (Hother & _).
  rewrite Hother; [done | done | apply dollar_not_hasOwnProperty].
Qed.

(** X13: on a target without an own field named "hasOwnProperty", for
    names that are pairwise distinct, none of them "hasOwnProperty" or
    another one followed by "$", and with no accessor pair at any
    [name + "$"], [createEchoProps] returns and initialises every property
    as [createEchoProp] alone would on the original target: creation
    notifies nobody, the target and the k-th handle read the initial value
    of the k-th pair (or the value adopted for it), and a subscriber is
    replayed exactly that value when it is not null. *)
Theorem group_initialised_independently (w : World) (book : list (string * value))
    (cfg : Config) (k : nat) (key : string) (init : value) :
  accessors_bound w →
  target w !! "hasOwnProperty" = None →
  "hasOwnProperty" ∉ fst <$> book →
  NoDup (fst <$> book) →
  independent_names (fst <$> book) →
  Forall (plain_dollar w) (fst <$> book) →
  book !! k = Some (key, init) →
  ∃ r, createEchoProps book cfg w = Returned r
       ∧ let init' := effectiveInitialValue key init cfg w in
         trace r = []
         ∧ result (get key (world r)) = init'
         ∧ ∃ h, result r !! k = Some h
                ∧ name h = key
                ∧ result (Handle_value h (world r)) = init'
                ∧ trace (Handle_subscribe h (world r))
                  = Next (subscriberCount w) <$> seed init'.
Proof.
  intros Hb Hs Hnin Hnd Hind Hplain Hk. exists (created_all book cfg w).
  split; [by apply createEchoProps_returns, group_returns |].
  set (r := created_all book cfg w). intros init'.
  destruct (created_all_plain book cfg w Hb Hnd Hind Hplain) as (Htr & _ & Hnew).
  fold r in Htr, Hnew. specialize (Hnew k key init Hk). fold init' in Hnew.
  destruct (created_all_handles book cfg w) as (Hr & _ & Hsc). fold r in Hr, Hsc.
  pose proof (created_all_bindings book cfg w k (key, init) Hnd Hk) as Ht.
  fold r in Ht. cbn [fst] in Ht.
  assert (Hg : getter (length (closures w) + k) (world r) = (init', world r, []))
    by (unfold getter; by rewrite Hnew).
  split; [exact Htr |]. split; [by rewrite (get_accessor _ _ _ Ht), Hg |].
  exists {| closure := length (closures w) + k; name := key |}.
  split_and!.
  - by rewrite Hr, list_lookup_imap, Hk.
  - done.
  - unfold Handle_value. cbn [closure]. by rewrite Hg.
  - rewrite (subscribe_fresh _ _ key cfg init') by exact Hnew.
    unfold Handle_subscribe. cbn [closure].
    destruct (subscribe_spec (world r) _ _ Hnew) as (-> & _). by rewrite Hsc.
Qed.

Lemma group_initialised_independently_witness :
  let w := initial {[ "health" := VNum 100 ]} in
  ∃ r, createEchoProps [("score", VNum 0); ("health", VNull)] default_config w = Returned r
       ∧ trace r = []
       ∧ result (get "health" (world r)) = VNum 100
       ∧ ∃ h, result r !! 1 = Some h
              ∧ name h = "health"
              ∧ result (Handle_value h (world r)) = VNum 100
              ∧ trace (Handle_subscribe h (world r)) = [Next 0 (VNum 100)].
Proof.
  intros w.
  apply (group_initialised_independently w [("score", VNum 0); ("health", VNull)]
           default_config 1 "health" VNull);
    [apply (bool_decide_unpack _); vm_compute; exact I
    | reflexivity
    | apply (bool_decide_unpack _); vm_compute; exact I ..
    | reflexivity].
Defined.

(** ** An existing field that is not adopted *)

(** X14: when [createEchoProp] is given an initial value, or
    [useExistingValueAsInitial] is switched off, the call returns, an own
    field that the target already has at that name is replaced by the
    accessor pair and its value is not kept: the target and the handle read
    the given initial value. *)
Theorem existing_field_is_replaced (w : World) (key : string) (init : value)
    (cfg : Config) (p : Property) :
  accessors_bound w →
  target w !! key = Some p →
  nullish init = false ∨ useExistingValueAsInitial cfg = false →
  ∃ r, createEchoProp key init cfg w = Returned r
       ∧ target (world r) !! key = Some (AccessorProperty (closure (result r)))
       ∧ result (get key (world r)) = init
       ∧ result (Handle_value (result r) (world r)) = init.
Proof.
  intros Hb Hp Hor. exists (created key init cfg w). split.
  { apply createEchoProp_returns. unfold throws.
    destruct Hor as [-> | ->]; [by rewrite andb_false_r | done]. }
  set (r := created key init cfg w).
  assert (HV : effectiveInitialValue key init cfg w = init).
  { unfold effectiveInitialValue. destruct Hor as [-> | ->]; [| done].
    by rewrite andb_false_r. }
  destruct (created_spec key init cfg w) as (Hr & Ht & _). fold r in Hr, Ht.
  pose proof (created_reads w key init cfg Hb) as Hreads. fold r in Hreads.
  rewrite HV in Hreads. destruct (reads_get _ _ _ _ _ Hreads) as (Hg & Hv).
  rewrite Hr. unfold Handle_value. cbn [closure]. done.
Qed.

Lemma existing_field_is_replaced_witness :
  let w := initial {[ "value" := VNum 1; "hasOwnProperty" := VNum 0 ]} in
  result (get "value" w) = VNum 1
  ∧ ∃ r, createEchoProp "value" (VNum 42) default_config w = Returned r
         ∧ target (world r) !! "value" = Some (AccessorProperty 0)
         ∧ result (get "value" (world r)) = VNum 42.
Proof.
  intros w. split; [reflexivity |].
  destruct (existing_field_is_replaced w "value" (VNum 42) default_config
              (DataProperty (VNum 1))) as (r & Hr & H1 & H2 & _);
    [apply (bool_decide_unpack _); vm_compute; exact I | reflexivity | by left |].
  exists r. split; [exact Hr |]. split; [| exact H2].
  rewrite H1. apply createEchoProp_returned in Hr as (_ & ->). reflexivity.
Defined.

(** ** The own-field test *)


Lemma createEchoProps_app_thrown (pre post : list (string * value)) (key : string)
    (init : value) (cfg : Config) (w w' : World) (r1 : list Handle * World * list event)
    (e : exception) (evs : list event) :
  createEchoProps pre cfg w = Returned r1 →
  createEchoProp key init cfg (world r1) = Thrown e w' evs →
  createEchoProps (pre ++ (key, init) :: post) cfg w = Thrown e w' (trace r1 ++ evs).
Proof.
  revert w r1. induction pre as [|[k0 i0] pre IH]; intros w r1 Hret Hthrow.
  - unfold createEchoProps in Hret. simpl in Hret. unfold lift, ret in Hret.
    simplify_eq. rewrite world_mk in Hthrow.
    by rewrite app_nil_l, createEchoProps_step, Hthrow.
  - rewrite createEchoProps_step in Hret. rewrite <- app_comm_cons, createEchoProps_step.
    destruct (createEchoProp k0 i0 cfg w) as [ra|ea wa eva]; [| done].
    destruct (createEchoProps pre cfg (world ra)) as [rb|eb wb evb] eqn:Hrb; [| done].
    simplify_eq. rewrite world_mk, trace_mk in *.
    rewrite (IH _ _ Hrb Hthrow). by rewrite app_assoc.
Qed.

(** X16: [createEchoProps] is not atomic.  When the call for a pair makes
    the own-field test on a target that by then has an own field named
    "hasOwnProperty", the TypeError leaves [createEchoProps], the pairs
    after it are not reached, and what was done for the pairs before it
    stays: their closures exist, their names are bound and their events
    were emitted. *)
Theorem group_creation_stops_at_throw (pre post : list (string * value)) (key : string)
    (init : value) (cfg : Config) (w : World) (r1 : list Handle * World * list event) :
  createEchoProps pre cfg w = Returned r1 →
  useExistingValueAsInitial cfg = true →
  nullish init = true →
  is_Some (target (world r1) !! "hasOwnProperty") →
  createEchoProps (pre ++ (key, init) :: post) cfg w
  = Thrown (TypeError "target.hasOwnProperty is not a function") (world r1) (trace r1)
  ∧ length (closures (world r1)) = length (closures w) + length pre
  ∧ (NoDup (fst <$> pre) →
     ∀ k p, pre !! k = Some p →
            target (world r1) !! p.1 = Some (AccessorProperty (length (closures w) + k))).
Proof.
  intros Hret Hu Hn Hs.
  assert (Hthrow : createEchoProp key init cfg (world r1)
                   = Thrown (TypeError "target.hasOwnProperty is not a function")
                       (world r1) []).
  { rewrite createEchoProp_outcome. unfold throws.
    by rewrite Hu, Hn, (bool_decide_eq_true_2 _ Hs). }
  rewrite (createEchoProps_app_thrown pre post key init cfg w _ r1 _ _ Hret Hthrow).
  rewrite app_nil_r. apply createEchoProps_returned in Hret as (_ & ->).
  destruct (created_all_handles pre cfg w) as (_ & Hl & _).
  split_and!; [done | exact Hl |].
  intros Hnd k p Hk. by apply created_all_bindings.
Qed.

Lemma group_creation_stops_at_throw_witness :
  ∃ r1, createEchoProps [("hasOwnProperty", VNum 1)] default_config empty_world
        = Returned r1
        ∧ createEchoProps [("hasOwnProperty", VNum 1); ("x", VNull); ("y", VNum 2)]
            default_config empty_world
          = Thrown (TypeError "target.hasOwnProperty is not a function") (world r1) []
        ∧ target (world r1) !! "hasOwnProperty" = Some (AccessorProperty 0)
        ∧ target (world r1) !! "x" = None.
Proof.
  eexists. split; [reflexivity |].
  destruct (group_creation_stops_at_throw [("hasOwnProperty", VNum 1)] [("y", VNum 2)]
              "x" VNull default_config empty_world _ eq_refl eq_refl eq_refl
              ltac:(vm_compute; eauto))
    as (H1 & _ & H3).
  split; [exact H1 |]. split; [| reflexivity].
  apply (H3 ltac:(apply (bool_decide_unpack _); vm_compute; exact I) 0
            ("hasOwnProperty", VNum 1) eq_refl).
Defined.
